(** * HybridRAG: the hybrid search engine of [app/search/hybrid_search.py]

    A shallow embedding of [HybridSearch] (semantic retrieval, min-max
    normalisation, keyword scoring with term expansion, weighted fusion,
    reranking, truncation) and the properties of its ranking pipeline.

    Modelling conventions.
    - Python [float] scores are exact rationals ([Q]); comparisons of scores
      are comparisons of rationals ([Qeq_bool], [Qle_bool]) and equalities
      between scores are stated with [==].  Rounding, infinities and NaN are
      outside the model.
    - Python [str] is [string]; the model covers ASCII text: [lower] maps
      [A-Z] to [a-z], whitespace is the ASCII part of [str.isspace], and
      [\w] is [[A-Za-z0-9_]].
    - [dict] is [gmap], [set] is [gset]; iteration over a set follows
      [elements].
    - [id(result.chunk)] is the field [chunk_id] of the chunk: one object has
      one identity, so chunks of a pool that share a [chunk_id] are the same
      chunk ([pool_wf]).
    - Every entry of the list a vector store returns is a [SearchResult]
      object of its own (both stores of the repository build a fresh one per
      hit), so the in-place updates of [result.metadata] are updates of the
      list entries.
    - Exceptions are values of [exn]; the call to the vector store is the
      only I/O of a search and is recorded in a trace. *)

From Stdlib Require Import Ascii String QArith Qminmax Lqa.
From stdpp Require Import gmap strings list sorting.

Local Open Scope Q_scope.

(** ** Python [str] methods used by the search *)

Module Str.

(** [str.isspace] on one ASCII character: TAB..CR, FS..US and SPACE. *)
Definition isspace (c : ascii) : bool :=
  let n := nat_of_ascii c in
  ((9 <=? n)%nat && (n <=? 13)%nat) || ((28 <=? n)%nat && (n <=? 32)%nat).

Definition lower_char (c : ascii) : ascii :=
  let n := nat_of_ascii c in
  if ((65 <=? n)%nat && (n <=? 90)%nat) then ascii_of_nat (n + 32) else c.

(** [s.lower()] *)
Fixpoint lower (s : string) : string :=
  match s with
  | EmptyString => EmptyString
  | String c s' => String (lower_char c) (lower s')
  end.

(** [len(s)] *)
Definition len (s : string) : nat := String.length s.

Fixpoint lstrip (s : string) : string :=
  match s with
  | EmptyString => EmptyString
  | String c s' => if isspace c then lstrip s' else s
  end.

Definition rstrip (s : string) : string := String.rev (lstrip (String.rev s)).

(** [s.strip()] *)
Definition strip (s : string) : string := rstrip (lstrip s).

Fixpoint split_go (cur : option string) (s : string) : list string :=
  match s with
  | EmptyString => option_list (String.rev <$> cur)
  | String c s' =>
      if isspace c
      then option_list (String.rev <$> cur) ++ split_go None s'
      else split_go (Some (String c (default EmptyString cur))) s'
  end.

(** [s.split()]: the maximal runs of non-whitespace characters. *)
Definition split (s : string) : list string := split_go None s.

(** [s.startswith(p)] *)
Fixpoint startswith (s p : string) : bool :=
  match p, s with
  | EmptyString, _ => true
  | String _ _, EmptyString => false
  | String a p', String b s' => bool_decide (a = b) && startswith s' p'
  end.
Global Arguments startswith : simpl nomatch.

(** [sub in s] *)
Fixpoint contains (sub s : string) : bool :=
  startswith s sub ||
  match s with
  | EmptyString => false
  | String _ s' => contains sub s'
  end.

(** [s.count(sub)]: occurrences are taken left to right and do not overlap;
    [skip] is the number of characters still covered by the last match. *)
Fixpoint count_go (skip : nat) (s sub : string) : nat :=
  match s with
  | EmptyString => if startswith s sub then 1 else 0
  | String _ s' =>
      match skip with
      | S k => count_go k s' sub
      | O => if startswith s sub
             then S (count_go (len sub - 1) s' sub)
             else count_go 0 s' sub
      end
  end%nat.

Definition count (s sub : string) : nat := count_go 0 s sub.

Fixpoint find_go (i : Z) (s sub : string) : Z :=
  if startswith s sub then i
  else match s with
       | EmptyString => (-1)%Z
       | String _ s' => find_go (i + 1)%Z s' sub
       end.

(** [s.find(sub)]: the offset of the first occurrence, or [-1]. *)
Definition find (s sub : string) : Z := find_go 0 s sub.

(** [s.replace(old, new)] for a non-empty [old]. *)
Fixpoint replace_go (skip : nat) (s old new : string) : string :=
  match s with
  | EmptyString => EmptyString
  | String c s' =>
      match skip with
      | S k => replace_go k s' old new
      | O => if startswith s old
             then new +:+ replace_go (len old - 1) s' old new
             else String c (replace_go 0 s' old new)
      end
  end.

Definition replace (s old new : string) : string := replace_go 0 s old new.

End Str.

(** ** The pattern [([\w\-]+\.pdf)] of [re.findall] *)

Module Re.

Definition is_word (c : ascii) : bool :=
  let n := nat_of_ascii c in
  ((48 <=? n)%nat && (n <=? 57)%nat) || ((65 <=? n)%nat && (n <=? 90)%nat)
  || ((97 <=? n)%nat && (n <=? 122)%nat) || (n =? 95)%nat.

(** The character class [[\w\-]]. *)
Definition is_name_char (c : ascii) : bool := is_word c || (nat_of_ascii c =? 45)%nat.

(** The longest prefix of characters of the class, and what follows it. *)
Fixpoint span_name (s : string) : string * string :=
  match s with
  | EmptyString => (EmptyString, EmptyString)
  | String c s' =>
      if is_name_char c
      then let '(run, rest) := span_name s' in (String c run, rest)
      else (EmptyString, s)
  end.

(** A match of the pattern at the start of [s].  The greedy [[\w\-]+] takes
    the longest run; giving characters back cannot help, since the character
    after a shorter run is in the class and so is not the dot. *)
Definition match_here (s : string) : option string :=
  let '(run, rest) := span_name s in
  if (0 <? Str.len run)%nat && Str.startswith rest ".pdf"
  then Some (run +:+ ".pdf") else None.

Fixpoint findall_go (skip : nat) (s : string) : list string :=
  match s with
  | EmptyString => []
  | String _ s' =>
      match skip with
      | S k => findall_go k s'
      | O => match match_here s with
             | Some m => m :: findall_go (Str.len m - 1) s'
             | None => findall_go 0 s'
             end
      end
  end.

(** [re.findall(r'([\w\-]+\.pdf)', s)]: the matches from left to right,
    each search resuming where the previous match ended. *)
Definition findall_pdf (s : string) : list string := findall_go 0 s.

End Re.

(** ** Data model *)

(** The values a metadata dictionary ([Dict[str, Any]]) holds. *)
Inductive PyVal :=
  | VNone
  | VBool (b : bool)
  | VNum (q : Q)
  | VStr (s : string)
  | VList (items : list string)
  | VDict (items : list (string * string)).

(** Python truthiness, as tested by [if v] and [v or w]. *)
Definition truthy (v : PyVal) : bool :=
  match v with
  | VNone => false
  | VBool b => b
  | VNum q => negb (Qeq_bool q 0)
  | VStr s => negb (bool_decide (s = EmptyString))
  | VList items => negb (bool_decide (items = []))
  | VDict items => negb (bool_decide (items = []))
  end.

(** [d.get(key)] followed by a truth test: a missing key gives [None]. *)
Definition get_truthy (d : gmap string PyVal) (key : string) : bool :=
  match d !! key with
  | Some v => truthy v
  | None => false
  end.

(** [app.chunking.base_chunker.Chunk]; [chunk_id] is [id(chunk)]. *)
Record Chunk := {
  chunk_id : positive;
  content : string;
  chunk_metadata : gmap string PyVal;
  chunk_index : Z
}.

(** [app.vector_store.base_store.SearchResult]; the search only stores and
    reads scores in [metadata]. *)
Record SearchResult := {
  chunk : Chunk;
  score : Q;
  metadata : gmap string Q
}.

(** [app.config.models.rag_config_model.HybridSearchConfig] *)
Record HybridSearchConfig := {
  semantic_weight : Q;
  keyword_weight : Q;
  top_k : Z;
  rerank : bool
}.

(** [result.metadata[key] = value] *)
Definition set_metadata (key : string) (value : Q) (result : SearchResult) : SearchResult :=
  {| chunk := chunk result; score := score result;
     metadata := <[key := value]> (metadata result) |}.

(** ** Exceptions and I/O *)

(** The exceptions of [app/core/exceptions.py] a search can meet, and the
    built-in [AttributeError] of a method call on a value without it. *)
Inductive exn :=
  | EmbeddingError
  | VectorStoreError
  | SearchError
  | AttributeError.

Inductive Result (A : Type) :=
  | Ok (a : A)
  | Raise (e : exn).
Arguments Ok {A} a.
Arguments Raise {A} e.

Global Instance result_bind : MBind Result := λ A B k r,
  match r with
  | Ok a => k a
  | Raise e => Raise e
  end.

(** A call that reaches the outside of the engine. *)
Inductive IOEvent :=
  | VectorStoreSearch (query : string) (top_k : Z).

(** A computation with its trace of I/O. *)
Definition IO (A : Type) : Type := list IOEvent * Result A.

Global Instance io_ret : MRet IO := λ A a, ([], Ok a).

Definition io_lift {A} (r : Result A) : IO A := ([], r).

Global Instance io_bind : MBind IO := λ A B k m,
  match m with
  | (t, Ok a) => let '(t', r) := k a in (t ++ t', r)
  | (t, Raise e) => (t, Raise e)
  end.

(** [BaseVectorStore.search(query, top_k, embedder)] with the embedder it is
    given: the retrieved results, or the exception of the store or of the
    embedding call inside it. *)
Definition VectorStore : Type := string → Z → Result (list SearchResult).

Definition vector_store_search (vs : VectorStore) (query : string) (k : Z)
  : IO (list SearchResult) :=
  ([VectorStoreSearch query k], vs query k).

(** ** Built-ins *)

(** [max(...)] and [min(...)] over a non-empty sequence with first element
    [x]: the first greatest (least) element. *)
Definition py_max (x : Q) (xs : list Q) : Q := foldl Qmax x xs.
Definition py_min (x : Q) (xs : list Q) : Q := foldl Qmin x xs.

(** [a / b] on two [int]s: true division.  Where the search divides, [b] is
    a multiple of the size of a non-empty term set. *)
Definition int_div (a b : nat) : Q := inject_Z (Z.of_nat a) / inject_Z (Z.of_nat b).

(** [l[:k]]: a negative [k] counts from the end. *)
Definition slice_to {A} (l : list A) (k : Z) : list A :=
  if (0 <=? k)%Z then take (Z.to_nat k) l
  else take (Z.to_nat (Z.of_nat (length l) + k)) l.

Definition Qlt_bool (a b : Q) : bool := negb (Qle_bool b a).

(** [l.sort(key=key, reverse=True)]: descending by key; the sort of Python is
    stable, also when reversed, so elements with equal keys keep their order.
    [insert_desc x l] puts [x], which came before the elements of [l], in
    front of the first element whose key is not greater. *)
Section Sort.
Context {A : Type} (key : A → Q).

Fixpoint insert_desc (x : A) (l : list A) : list A :=
  match l with
  | [] => [x]
  | y :: l' => if Qlt_bool (key x) (key y) then y :: insert_desc x l' else x :: l
  end.

Fixpoint sort_desc (l : list A) : list A :=
  match l with
  | [] => []
  | x :: l' => insert_desc x (sort_desc l')
  end.

End Sort.

(** ** [HybridSearch] *)

(** Lines 25-32 of [search]: min-max normalisation of the raw scores into
    [metadata["semantic_score"]]. *)
Definition score_range (max_score min_score : Q) : Q :=
  if negb (Qeq_bool max_score min_score) then max_score - min_score else 1.

Definition normalize_results (semantic_results : list SearchResult) : list SearchResult :=
  match semantic_results with
  | [] => []
  | r :: rest =>
      let max_score := py_max (score r) (score <$> rest) in
      let min_score := py_min (score r) (score <$> rest) in
      let range := score_range max_score min_score in
      (λ result,
         let normalized_score := (score result - min_score) / range in
         set_metadata "semantic_score" normalized_score result) <$> semantic_results
  end.

(** The query terms of [_keyword_search]: lower-cased whitespace tokens longer
    than one character. *)
Definition query_terms_of (query_lower : string) : list string :=
  filter (λ term, (1 < Str.len term)%nat) (Str.strip <$> Str.split query_lower).

(** Lines 64-70 for one result: the first three matches, without [".pdf"],
    longer than three characters. *)
Definition pdf_names (result : SearchResult) : list string :=
  let content_lower := Str.lower (content (chunk result)) in
  let pdf_refs := Re.findall_pdf content_lower in
  filter (λ pdf_name, (3 < Str.len pdf_name)%nat)
         ((λ pdf_ref, Str.replace pdf_ref ".pdf" EmptyString) <$> take 3 pdf_refs).

Definition add_all (names : list string) (terms : gset string) : gset string :=
  foldl (λ acc name, {[name]} ∪ acc) terms names.

(** Lines 57-70: the expanded term set. *)
Definition expand_terms (query_lower : string) (query_terms : list string)
    (semantic_results : list SearchResult) : gset string :=
  let expanded_terms : gset string := list_to_set query_terms in
  if Str.contains "pdf" query_lower || Str.contains "sample" query_lower then
    let expanded_terms :=
      if Str.contains "sample" query_lower
      then {["sample-3pp"]} ∪ ({["sample"]} ∪ expanded_terms)
      else expanded_terms in
    if Str.contains "pdf" query_lower
    then foldl (λ acc result, add_all (pdf_names result) acc)
               ({["pdf"]} ∪ expanded_terms) semantic_results
    else expanded_terms
  else expanded_terms.

(** Lines 78-83: the text of the file name and the URL. *)
Definition append_field (text : string) (field : option PyVal) : Result string :=
  match field with
  | None => Ok text
  | Some v =>
      if truthy v then
        match v with
        | VStr s => Ok (text +:+ " " +:+ Str.lower s)
        | _ => Raise AttributeError
        end
      else Ok text
  end.

Definition metadata_text_of (chunk_metadata : gmap string PyVal) : Result string :=
  text ← append_field EmptyString (chunk_metadata !! "file_name");
  append_field text (chunk_metadata !! "url").

(** The counters of lines 85-87. *)
Record Counters := {
  term_matches : nat;
  total_term_count : nat;
  metadata_matches : nat
}.

(** Lines 89-98: one term. *)
Definition count_term (content_lower metadata_text : string) (acc : Counters)
    (term : string) : Counters :=
  let content_count := Str.count content_lower term in
  let meta_count :=
    if bool_decide (metadata_text = EmptyString) then 0%nat else Str.count metadata_text term in
  let count := (content_count + meta_count)%nat in
  if (0 <? count)%nat then
    {| term_matches := term_matches acc + 1;
       total_term_count := total_term_count acc + count;
       metadata_matches :=
         if (0 <? meta_count)%nat then metadata_matches acc + 1 else metadata_matches acc |}
  else acc.

Definition count_terms (content_lower metadata_text : string)
    (query_terms_set : gset string) : Counters :=
  foldl (count_term content_lower metadata_text)
        {| term_matches := 0; total_term_count := 0; metadata_matches := 0 |}
        (elements query_terms_set).

(** Lines 100-106. *)
Definition score_of_counters (n : nat) (c : Counters) : Q :=
  if (0 <? term_matches c)%nat then
    let presence_score := int_div (term_matches c) n in
    let frequency_score := Qmin (int_div (total_term_count c) (n * 5)) 1 in
    let metadata_boost := Qmin (int_div (metadata_matches c) n) (3 # 10) in
    (1 # 2) * presence_score + (3 # 10) * frequency_score + metadata_boost
  else 0.

(** Lines 76-106: the keyword score of one chunk. *)
Definition keyword_score (query_terms_set : gset string) (c : Chunk) : Result Q :=
  let content_lower := Str.lower (content c) in
  metadata_text ← metadata_text_of (chunk_metadata c);
  Ok (score_of_counters (size query_terms_set)
        (count_terms content_lower metadata_text query_terms_set)).

(** Lines 73-110: the loop filling [keyword_scores]. *)
Fixpoint score_results (query_terms_set : gset string)
    (semantic_results : list SearchResult) (keyword_scores : gmap positive Q)
  : Result (gmap positive Q) :=
  match semantic_results with
  | [] => Ok keyword_scores
  | result :: rest =>
      s ← keyword_score query_terms_set (chunk result);
      score_results query_terms_set rest (<[chunk_id (chunk result) := s]> keyword_scores)
  end.

Definition _keyword_search (query : string) (semantic_results : list SearchResult)
  : Result (gmap positive Q) :=
  let query_lower := Str.strip (Str.lower query) in
  if bool_decide (query_lower = EmptyString) then Ok ∅
  else
    let query_terms := query_terms_of query_lower in
    if bool_decide (query_terms = []) then Ok ∅
    else
      let query_terms_set := expand_terms query_lower query_terms semantic_results in
      score_results query_terms_set semantic_results ∅.

(** Lines 116-128: the fused score of one result. *)
Definition combine_one (config : HybridSearchConfig) (keyword_scores : gmap positive Q)
    (result : SearchResult) : SearchResult :=
  let chunk_id := chunk_id (chunk result) in
  let semantic_score := default (score result) (metadata result !! "semantic_score") in
  let keyword_score := default 0 (keyword_scores !! chunk_id) in
  let combined_score :=
    semantic_weight config * semantic_score + keyword_weight config * keyword_score in
  set_metadata "keyword_score" keyword_score
    (set_metadata "combined_score" combined_score result).

(** The sort key [x.metadata.get("combined_score", 0.0)]. *)
Definition combined_key (x : SearchResult) : Q :=
  default 0 (metadata x !! "combined_score").

Definition _combine_results (config : HybridSearchConfig)
    (semantic_results : list SearchResult) (keyword_scores : gmap positive Q)
  : list SearchResult :=
  let combined := combine_one config keyword_scores <$> semantic_results in
  sort_desc combined_key combined.

(** Lines 150-154. *)
Definition position_boost_of (content_lower : string) (query_terms : gset string) : Q :=
  foldl (λ position_boost term,
           let pos := Str.find content_lower term in
           if bool_decide (pos ≠ (-1)%Z)
           then position_boost + 1 / (1 + inject_Z pos / 100)
           else position_boost)
        0 (elements query_terms).

(** Lines 156-167. *)
Definition has_site_context (chunk_metadata : gmap string PyVal) : bool :=
  get_truthy chunk_metadata "site_common"
  || get_truthy chunk_metadata "navigation_links"
  || get_truthy chunk_metadata "url".

Definition site_context_boost_of (is_site_query : bool)
    (chunk_metadata : gmap string PyVal) : Q :=
  if has_site_context chunk_metadata then
    if is_site_query then 25 # 100 else 15 # 100
  else 0.

Definition is_site_query_of (query_lower : string) : bool :=
  Str.contains "site" query_lower || Str.contains "this" query_lower.

(** Lines 147-174: the update of one result. *)
Definition rerank_one (query_terms : gset string) (is_site_query : bool)
    (result : SearchResult) : SearchResult :=
  let content_lower := Str.lower (content (chunk result)) in
  let position_boost := position_boost_of content_lower query_terms in
  let site_context_boost :=
    site_context_boost_of is_site_query (chunk_metadata (chunk result)) in
  let current_score := default 0 (metadata result !! "combined_score") in
  set_metadata "combined_score"
    (current_score + position_boost * (1 # 10) + site_context_boost) result.

Definition _rerank (results : list SearchResult) (query : string) : list SearchResult :=
  let query_lower := Str.lower query in
  let query_terms : gset string := list_to_set (Str.split query_lower) in
  let is_site_query := is_site_query_of query_lower in
  sort_desc combined_key (rerank_one query_terms is_site_query <$> results).

(** Lines 17-40. *)
Definition search (vector_store : VectorStore) (config : HybridSearchConfig)
    (query : string) : IO (list SearchResult) :=
  semantic_results ← vector_store_search vector_store query (top_k config * 2);
  let semantic_results := normalize_results semantic_results in
  keyword_results ← io_lift (_keyword_search query semantic_results);
  let combined_results := _combine_results config semantic_results keyword_results in
  let combined_results :=
    if rerank config then _rerank combined_results query else combined_results in
  mret (slice_to combined_results (top_k config)).

(** The scores a result carries after a search. *)
Definition semantic_score_of (r : SearchResult) : option Q := metadata r !! "semantic_score".
Definition keyword_score_of (r : SearchResult) : option Q := metadata r !! "keyword_score".
Definition combined_score_of (r : SearchResult) : option Q := metadata r !! "combined_score".

(** The normaliser on bare scores: the semantic scores [normalize_results]
    gives to results with these raw scores. *)
Definition bare_chunk : Chunk :=
  {| chunk_id := 1; content := EmptyString; chunk_metadata := ∅; chunk_index := 0 |}.
Definition bare_result (s : Q) : SearchResult :=
  {| chunk := bare_chunk; score := s; metadata := ∅ |}.
Definition normalize (scores : list Q) : list Q :=
  omap semantic_score_of (normalize_results (bare_result <$> scores)).

(** ** The sort: a stable descending sort *)

(** [output] is [input] in descending order of [key], elements of equal key
    in the order they have in [input]. *)
Definition stable_descending {A} (key : A → Q) (input output : list A) : Prop :=
  output ≡ₚ input ∧
  StronglySorted (λ a b, key b <= key a) output ∧
  ∀ c : Q, filter (λ r, Qeq_bool (key r) c) output = filter (λ r, Qeq_bool (key r) c) input.


(** ** Vocabulary of the statements *)

(** Chunks with the same identity are the same chunk. *)
Definition chunks_wf (chunks : list Chunk) : Prop :=
  ∀ c1 c2, c1 ∈ chunks → c2 ∈ chunks → chunk_id c1 = chunk_id c2 → c1 = c2.

Definition pool_wf (pool : list SearchResult) : Prop := chunks_wf (chunk <$> pool).

(** A blank query: empty or whitespace only. *)
Fixpoint blank (query : string) : bool :=
  match query with
  | EmptyString => true
  | String c query' => Str.isspace c && blank query'
  end.

(** The query as [_keyword_search] reads it, and its tokens. *)
Definition keyword_query (query : string) : string := Str.strip (Str.lower query).
Definition keyword_tokens (query : string) : list string :=
  query_terms_of (keyword_query query).

(** The term set [_keyword_search] scores a pool with. *)
Definition expanded_terms (query : string) (pool : list SearchResult) : gset string :=
  expand_terms (keyword_query query) (keyword_tokens query) pool.

(** The number of terms that occur in the content or in the metadata text. *)
Definition matched_terms (content_lower metadata_text : string) (terms : gset string) : nat :=
  length (filter (λ t, Str.contains t content_lower || Str.contains t metadata_text)
                 (elements terms)).

(** The occurrences of the terms in the content and in the metadata text. *)
Definition total_occurrences (content_lower metadata_text : string) (terms : gset string) : nat :=
  sum_list ((λ t, Str.count content_lower t + Str.count metadata_text t)%nat <$> elements terms).

(** The number of terms that occur in the metadata text. *)
Definition metadata_hits (metadata_text : string) (terms : gset string) : nat :=
  length (filter (λ t, Str.contains t metadata_text) (elements terms)).

(** [contentMatches] in the words of the specification: the number of terms
    that occur in the lower-cased content. *)
Definition content_matches (content_lower : string) (terms : gset string) : nat :=
  length (filter (λ t, Str.contains t content_lower) (elements terms)).

(** The lexical score as a formula of three counts over [n] terms. *)
Definition lexical_formula (n matches frequency boost : nat) : Q :=
  (1 # 2) * int_div matches n
  + (3 # 10) * Qmin (int_div frequency (n * 5)) 1
  + Qmin (int_div boost n) (3 # 10).

(** Every character of [s] satisfies [p]. *)
Fixpoint all_chars (p : ascii → bool) (s : string) : bool :=
  match s with
  | EmptyString => true
  | String c s' => p c && all_chars p s'
  end.

(** The ranking after retrieval, lines 25-40. *)
Definition rank (config : HybridSearchConfig) (query : string)
    (pool : list SearchResult) (keyword_results : gmap positive Q) : list SearchResult :=
  let combined := _combine_results config (normalize_results pool) keyword_results in
  slice_to (if rerank config then _rerank combined query else combined) (top_k config).

(** ** Sample data *)

(** The defaults of [HybridSearchConfig]. *)
Definition default_config : HybridSearchConfig :=
  {| semantic_weight := 7 # 10; keyword_weight := 3 # 10; top_k := 5; rerank := true |}.

Definition make_result (id : positive) (text : string) (md : gmap string PyVal)
    (similarity : Q) : SearchResult :=
  {| chunk := {| chunk_id := id; content := text; chunk_metadata := md; chunk_index := 0 |};
     score := similarity;
     metadata := {["similarity" := similarity]} |}.

(** A store that answers every query with the first [top_k] results of
    [hits], by the slice [[:top_k]] of the in-memory store. *)
Definition store_of (hits : list SearchResult) : VectorStore :=
  λ _ k, Ok (slice_to hits k).

Definition three_hits : list SearchResult :=
  [ make_result 1 "alpha" ∅ (9 # 10);
    make_result 2 "beta" ∅ (5 # 10);
    make_result 3 "gamma" ∅ (1 # 10) ].

Definition five_hits : list SearchResult :=
  three_hits ++ [ make_result 4 "delta" ∅ (1 # 20); make_result 5 "epsilon" ∅ (1 # 40) ].

(** A chunk that repeats the term and is named after it. *)
Definition ab_hit : SearchResult :=
  make_result 1 "ab ab ab ab ab" {["file_name" := VStr "ab"]} 1.

(** A chunk without text, named after the term. *)
Definition empty_ab_hit : SearchResult :=
  make_result 1 EmptyString {["file_name" := VStr "ab"]} 1.

Definition pdf_hit : SearchResult := make_result 1 "pdf" ∅ 1.
Definition report_hit : SearchResult := make_result 2 "report.pdf" ∅ 1.
Definition nothing_hit : SearchResult := make_result 2 "nothing" ∅ 1.

Definition url_hit : SearchResult :=
  make_result 1 "our website" {["url" := VStr "https://example.org/"]} 1.
Definition nav_hit : SearchResult :=
  make_result 1 "home" {["navigation_links" := VList ["/"; "/about"]]} 1.

Definition hello_hit : SearchResult := make_result 1 "hello world" ∅ 1.
Definition download_hit : SearchResult :=
  make_result 1 "Download sample-3pp.pdf here" ∅ 1.

(** A chunk whose file name is a number: [file_name.lower()] raises. *)
Definition numbered_hit : SearchResult :=
  make_result 1 "ab" {["file_name" := VNum 7]} 1.

(** ** Vocabulary of the further statements *)

(** The candidate behind a result: its chunk and its raw similarity. *)
Definition candidate_of (r : SearchResult) : Chunk * Q := (chunk r, score r).

(** A metadata field that cannot be lower-cased: set to a true value that is
    no string. *)
Definition unusable_text (field : option PyVal) : bool :=
  match field with
  | Some (VStr _) => false
  | Some v => truthy v
  | None => false
  end.

(** A chunk whose file name or URL is such a field. *)
Definition malformed_chunk (c : Chunk) : bool :=
  unusable_text (chunk_metadata c !! "file_name")
  || unusable_text (chunk_metadata c !! "url").

(** [x] stands before [y] in [l]. *)
Definition precedes {A} (x y : A) (l : list A) : Prop :=
  ∃ i j : nat, (i < j)%nat ∧ l !! i = Some x ∧ l !! j = Some y.

(** Two candidates of equal similarity: one repeats the term [aa] and has a
    URL, the other holds the terms [aa] and [aab] at its start. *)
Definition repeated_hit : SearchResult :=
  make_result 1 "aa aa" {["url" := VStr "http://x"]} (1 # 2).
Definition prefixed_hit : SearchResult := make_result 2 "aab" ∅ (1 # 2).

(** * Ingestion: documents, chunkers, loaders, embedder and in-memory store *)

(** [app.loaders.base_loader.Document]; a path is the string [str(path)] of
    a normalised POSIX path. *)
Record Document := {
  doc_content : string;
  doc_metadata : gmap string PyVal;
  source_path : string
}.

(** [s[start:stop]] on a string: negative indices count from the end and
    both are clamped to the string. *)
Definition clamp_index (n i : Z) : Z :=
  if (i <? 0)%Z then Z.max 0 (n + i) else Z.min i n.

Definition slice_str (s : string) (start stop : Z) : string :=
  let n := Z.of_nat (Str.len s) in
  let a := clamp_index n start in
  let b := clamp_index n stop in
  string_of_list_ascii
    (take (Z.to_nat (b - a)) (drop (Z.to_nat a) (list_ascii_of_string s))).

(** The identity of the [k]-th object allocated from [next_id] on. *)
Definition nth_id (next_id : positive) (k : nat) : positive :=
  Pos.of_nat (Pos.to_nat next_id + k).

(** ** [app/chunking/fixed_chunker.py] *)

Record FixedChunker := {
  chunk_size : Z;
  chunk_overlap : Z
}.

(** Lines 26-33: the metadata of a chunk, a copy of the document's with the
    chunking parameters and the positions. *)
Definition fixed_metadata (self : FixedChunker) (document : Document)
    (start end_ : Z) : gmap string PyVal :=
  <["end_position" := VNum (inject_Z end_)]>
  (<["start_position" := VNum (inject_Z start)]>
  (<["chunk_overlap" := VNum (inject_Z (chunk_overlap self))]>
  (<["chunk_size" := VNum (inject_Z (chunk_size self))]>
  (<["chunking_strategy" := VStr "fixed"]> (doc_metadata document))))).

(** Lines 22-42: the [while] loop from [start] on, [idx] chunks made so far;
    [None] when the loop is still running after [fuel] rounds. *)
Fixpoint fixed_chunk_loop (fuel : nat) (self : FixedChunker) (document : Document)
    (start idx : Z) (next_id : positive) : option (list Chunk) :=
  if (start <? Z.of_nat (Str.len (doc_content document)))%Z then
    match fuel with
    | O => None
    | S fuel' =>
        let end_ := (start + chunk_size self)%Z in
        let chunk_content := slice_str (doc_content document) start end_ in
        let c := {| chunk_id := next_id;
                    content := chunk_content;
                    chunk_metadata := fixed_metadata self document start end_;
                    chunk_index := idx |} in
        rest ← fixed_chunk_loop fuel' self document
                 (end_ - chunk_overlap self)%Z (idx + 1)%Z (Pos.succ next_id);
        Some (c :: rest)
    end
  else Some [].

(** [FixedChunker.chunk(document)], the chunks taking their identities from
    [next_id] on. *)
Definition fixed_chunk (fuel : nat) (self : FixedChunker) (document : Document)
    (next_id : positive) : option (list Chunk) :=
  fixed_chunk_loop fuel self document 0 0 next_id.

(** The distance between the starts of two consecutive chunks. *)
Definition fixed_step (self : FixedChunker) : Z := (chunk_size self - chunk_overlap self)%Z.

(** The [k]-th chunk of a document. *)
Definition fixed_chunk_at (self : FixedChunker) (document : Document)
    (next_id : positive) (k : nat) : Chunk :=
  let start := (Z.of_nat k * fixed_step self)%Z in
  {| chunk_id := nth_id next_id k;
     content := slice_str (doc_content document) start (start + chunk_size self);
     chunk_metadata := fixed_metadata self document start (start + chunk_size self);
     chunk_index := Z.of_nat k |}.

(** The number of chunks of a text of [n] characters. *)
Definition fixed_count (self : FixedChunker) (n : nat) : nat :=
  Z.to_nat ((Z.of_nat n + fixed_step self - 1) / fixed_step self).

(** ** [app/chunking/chunker_factory.py] *)

(** A chunker of the factory: its name and its [chunk] method, which returns
    chunks, raises, or does not return ([None]). *)
Record Chunker := {
  get_name : string;
  chunk_method : Document → option (Result (list Chunk))
}.

Definition min_chunk_size : nat := 50.

(** Line 65: [chunk.metadata["chunking_strategy"] = chunker.get_name()] *)
Definition stamp_strategy (name : string) (c : Chunk) : Chunk :=
  {| chunk_id := chunk_id c; content := content c;
     chunk_metadata := <["chunking_strategy" := VStr name]> (chunk_metadata c);
     chunk_index := chunk_index c |}.

(** Lines 64-68: the chunks that are kept: with content, and at least
    [min_chunk_size] characters when stripped. *)
Definition keeps_chunk (c : Chunk) : bool :=
  negb (bool_decide (content c = EmptyString))
  && (min_chunk_size <=? Str.len (Str.strip (content c)))%nat.

(** Lines 60-71: one chunker; an exception is reported and the chunker gives
    nothing. *)
Definition chunks_of_chunker (document : Document) (chunker : Chunker)
  : option (list Chunk) :=
  match chunk_method chunker document with
  | None => None
  | Some (Raise _) => Some []
  | Some (Ok chunks) => Some (stamp_strategy (get_name chunker) <$> filter keeps_chunk chunks)
  end.

Fixpoint chunks_of_chunkers (document : Document) (chunkers : list Chunker)
  : option (list Chunk) :=
  match chunkers with
  | [] => Some []
  | chunker :: rest =>
      chunks ← chunks_of_chunker document chunker;
      more ← chunks_of_chunkers document rest;
      Some (chunks ++ more)
  end.

(** [ChunkerFactory.chunk_document] *)
Definition chunk_document (chunkers : list Chunker) (document : Document)
  : option (list Chunk) :=
  if bool_decide (doc_content document = EmptyString)
     || bool_decide (Str.strip (doc_content document) = EmptyString)
  then Some []
  else chunks_of_chunkers document chunkers.

(** [ChunkerFactory.chunk_documents] *)
Fixpoint chunk_documents (chunkers : list Chunker) (documents : list Document)
  : option (list Chunk) :=
  match documents with
  | [] => Some []
  | document :: rest =>
      chunks ← chunk_document chunkers document;
      more ← chunk_documents chunkers rest;
      Some (chunks ++ more)
  end.

(** The [FixedChunker] as a chunker of the factory. *)
Definition fixed_chunker (fuel : nat) (self : FixedChunker) (next_id : positive) : Chunker :=
  {| get_name := "fixed";
     chunk_method := λ document, Ok <$> fixed_chunk fuel self document next_id |}.

(** ** [app/loaders]: the choice of a loader *)

Module Path.

(** [path.name]: the last component. *)
Fixpoint name_go (cur : string) (p : string) : string :=
  match p with
  | EmptyString => String.rev cur
  | String c p' =>
      if bool_decide (c = "/"%char) then name_go EmptyString p'
      else name_go (String c cur) p'
  end.
Definition name (p : string) : string := name_go EmptyString p.

(** The part of [s] from its last dot on. *)
Fixpoint from_last_dot (s : string) : option string :=
  match s with
  | EmptyString => None
  | String c s' =>
      match from_last_dot s' with
      | Some t => Some t
      | None => if bool_decide (c = "."%char) then Some s else None
      end
  end.

(** [path.suffix]: the name from its last dot on, when that dot is neither
    the first nor the last character of the name. *)
Definition suffix (p : string) : string :=
  match name p with
  | EmptyString => EmptyString
  | String _ rest =>
      match from_last_dot rest with
      | Some t => if (1 <? Str.len t)%nat then t else EmptyString
      | None => EmptyString
      end
  end.

End Path.

(** The loader classes of the repository. *)
Inductive Loader :=
  | MarkdownLoader
  | JsonLoader
  | TextLoader
  | HtmlLoader
  | RawHtmlLoader
  | PdfLoader.

(** [loader.can_load(file_path)] *)
Definition can_load (loader : Loader) (file_path : string) : bool :=
  match loader with
  | MarkdownLoader =>
      bool_decide (Str.lower (Path.suffix file_path) ∈ [".md"; ".markdown"])
  | JsonLoader => bool_decide (Str.lower (Path.suffix file_path) = ".json")
  | TextLoader =>
      bool_decide (Str.lower (Path.suffix file_path) ∈ [".txt"; ".text"])
  | HtmlLoader =>
      bool_decide (Path.suffix file_path = ".txt") && Str.contains "processed" file_path
  | RawHtmlLoader =>
      bool_decide (Path.suffix file_path ∈ [".html"; ".htm"])
      && Str.contains "raw_html" file_path
  | PdfLoader => bool_decide (Str.lower (Path.suffix file_path) = ".pdf")
  end.

(** The loaders [DocumentLoaderFactory.__init__] registers, in its order. *)
Definition default_loaders : list Loader :=
  [MarkdownLoader; JsonLoader; TextLoader; HtmlLoader; RawHtmlLoader].

(** [DocumentLoaderFactory.get_loader]: the first loader that can load the
    file; [None] stands for the [ValueError] it raises when there is none. *)
Fixpoint get_loader (loaders : list Loader) (file_path : string) : option Loader :=
  match loaders with
  | [] => None
  | loader :: rest =>
      if can_load loader file_path then Some loader else get_loader rest file_path
  end.

(** [DocumentLoaderFactory.load_documents], over the [load] methods of the
    loaders: a file without loader, a failing load and a document without
    content are skipped. *)
Definition load_documents (load : Loader → string → Result Document)
    (loaders : list Loader) (file_paths : list string) : list Document :=
  omap (λ file_path,
          match get_loader loaders file_path with
          | None => None
          | Some loader =>
              match load loader file_path with
              | Ok doc =>
                  if bool_decide (doc_content doc = EmptyString) then None else Some doc
              | Raise _ => None
              end
          end) file_paths.

(** ** [app/embeddings/azure_embedder.py] and [app/vector_store/in_memory_store.py] *)

(** The built-in [ValueError] beside the exceptions of the application. *)
Inductive py_exn :=
  | ValueError
  | IndexError
  | AppError (e : exn).

Inductive Outcome (A : Type) :=
  | Returns (a : A)
  | Raises (e : py_exn).
Arguments Returns {A} a.
Arguments Raises {A} e.

Definition Vector : Type := list Q.

(** The embedding service behind the embedder: [embed_query] and
    [embed_documents] of the Azure client. *)
Record EmbeddingService := {
  embed_query : string → Outcome Vector;
  embed_documents : list string → Outcome (list Vector)
}.

(** [not text or not text.strip()] *)
Definition is_blank_text (text : string) : bool :=
  bool_decide (text = EmptyString) || bool_decide (Str.strip text = EmptyString).

(** [AzureEmbedder.embed_text] *)
Definition embed_text (service : EmbeddingService) (text : string) : Outcome Vector :=
  if is_blank_text text then Raises ValueError else embed_query service text.

(** [AzureEmbedder.embed_texts] *)
Definition embed_texts (service : EmbeddingService) (texts : list string)
  : Outcome (list Vector) :=
  if bool_decide (texts = []) then Returns []
  else
    let valid_texts := filter (λ t, is_blank_text t = false) texts in
    if bool_decide (valid_texts = []) then Returns []
    else embed_documents service valid_texts.

(** The state of an [InMemoryVectorStore]. *)
Record InMemoryVectorStore := {
  chunks : list Chunk;
  vectors : list Vector
}.

(** [InMemoryVectorStore.add_chunks] with an [AzureEmbedder]: the new state,
    or the exception of the embedder with the state as it was. *)
Definition add_chunks (service : EmbeddingService) (self : InMemoryVectorStore)
    (new_chunks : list Chunk) : Outcome InMemoryVectorStore :=
  let texts := content <$> new_chunks in
  match embed_texts service texts with
  | Raises e => Raises e
  | Returns embeddings =>
      Returns {| chunks := chunks self ++ new_chunks;
                 vectors := vectors self ++ embeddings |}
  end.

Definition delete_all (self : InMemoryVectorStore) : InMemoryVectorStore :=
  {| chunks := []; vectors := [] |}.

Definition get_count (self : InMemoryVectorStore) : nat := length (chunks self).

(** The two library calls of [search]: [cosine_similarity] of the query
    vector with the stored vectors, which may raise, and [np.argsort]. *)
Record Numpy := {
  cosine_similarity : Vector → list Vector → Outcome (list Q);
  argsort : list Q → list nat
}.

(** Lines 38-45 of [search]: the results for the chosen indices; an index
    out of range raises [IndexError]. *)
Fixpoint collect_results (self : InMemoryVectorStore) (similarities : list Q)
    (top_indices : list nat) : Outcome (list SearchResult) :=
  match top_indices with
  | [] => Returns []
  | idx :: rest =>
      match similarities !! idx with
      | None => Raises IndexError
      | Some similarity =>
          if Qlt_bool 0 similarity then
            match chunks self !! idx with
            | None => Raises IndexError
            | Some c =>
                match collect_results self similarities rest with
                | Raises e => Raises e
                | Returns results =>
                    Returns ({| chunk := c; score := similarity;
                                metadata := {["similarity" := similarity]} |} :: results)
                end
            end
          else collect_results self similarities rest
      end
  end.

(** [InMemoryVectorStore.search] with an [AzureEmbedder]. *)
Definition in_memory_search (np : Numpy) (service : EmbeddingService)
    (self : InMemoryVectorStore) (query : string) (k : Z)
  : Outcome (list SearchResult) :=
  match embed_text service query with
  | Raises e => Raises e
  | Returns query_vector =>
      match cosine_similarity np query_vector (vectors self) with
      | Raises e => Raises e
      | Returns similarities =>
          let top_indices := slice_to (reverse (argsort np similarities)) k in
          collect_results self similarities top_indices
      end
  end.

(** Every stored chunk has its vector at the same index. *)
Definition aligned (self : InMemoryVectorStore) : Prop :=
  length (vectors self) = length (chunks self).

(** An embedding service that answers with one vector for each text. *)
Definition one_vector_per_text (service : EmbeddingService) : Prop :=
  ∀ texts embeddings,
    embed_documents service texts = Returns embeddings →
    length embeddings = length texts.

(** Sample data of the ingestion. *)
Definition sample_document : Document :=
  {| doc_content := "abcdefghij";
     doc_metadata := {["file_name" := VStr "sample.txt"]};
     source_path := "downloads/processed/sample.txt" |}.
Definition sample_chunker : FixedChunker := {| chunk_size := 4; chunk_overlap := 1 |}.

Definition long_document : Document :=
  {| doc_content :=
       "The quick brown fox jumps over the lazy dog and keeps running on.";
     doc_metadata := ∅;
     source_path := "downloads/processed/fox.md" |}.

(** A chunker whose splitter fails. *)
Definition failing_chunker : Chunker :=
  {| get_name := "semantic"; chunk_method := λ _, Some (Raise EmbeddingError) |}.

Definition wide_chunker : Chunker :=
  fixed_chunker 100 {| chunk_size := 60; chunk_overlap := 0 |} 1.

(** A service that embeds a text as its length, and a stand-in for the two
    library calls: the similarity of one-dimensional vectors is the product
    of their coordinates, and [argsort] sorts the indices by ascending value. *)
Definition length_service : EmbeddingService :=
  {| embed_query := λ text, Returns [inject_Z (Z.of_nat (Str.len text))];
     embed_documents := λ texts,
       Returns ((λ text, [inject_Z (Z.of_nat (Str.len text))]) <$> texts) |}.
Definition first_coordinate (v : Vector) : Q := default 0 (head v).
Definition sample_numpy : Numpy :=
  {| cosine_similarity := λ query_vector stored,
       Returns ((λ v, first_coordinate query_vector * first_coordinate v) <$> stored);
     argsort := λ similarities,
       merge_sort (λ i j, Is_true (Qle_bool (default 0 (similarities !! i))
                                            (default 0 (similarities !! j))))
                  (seq 0 (length similarities)) |}.
Definition empty_store : InMemoryVectorStore := {| chunks := []; vectors := [] |}.
Definition text_chunk (id : positive) (text : string) : Chunk :=
  {| chunk_id := id; content := text; chunk_metadata := ∅; chunk_index := 0 |}.
Definition sample_store : InMemoryVectorStore :=
  {| chunks := [text_chunk 1 "alpha"; text_chunk 2 "beta"];
     vectors := [[-5]; [4]] |}.
(** ** Examples *)

Example split_ex : Str.split "  find  the pdf " = ["find"; "the"; "pdf"].
Proof. reflexivity. Qed.
Example strip_ex : Str.strip "  a b  " = "a b".
Proof. reflexivity. Qed.
Example count_ex : Str.count "aaaa" "aa" = 2%nat /\ Str.count "abc" EmptyString = 4%nat.
Proof. split; reflexivity. Qed.
Example find_ex : Str.find "hello" "l" = 2%Z /\ Str.find "hello" "z" = (-1)%Z.
Proof. split; reflexivity. Qed.
Example findall_ex :
  Re.findall_pdf "download sample-3pp.pdf here a.pdfb.pdf x.pdf" =
  ["sample-3pp.pdf"; "a.pdf"; "b.pdf"; "x.pdf"].
Proof. reflexivity. Qed.
Example replace_ex : Str.replace "sample-3pp.pdf" ".pdf" EmptyString = "sample-3pp".
Proof. reflexivity. Qed.
Example lower_ex : Str.lower "Hello PDF_1" = "hello pdf_1".
Proof. reflexivity. Qed.

Example query_terms_ex : keyword_tokens "  Find a PDF  " = ["find"; "pdf"].
Proof. reflexivity. Qed.
Example normalize_empty : normalize [] = [].
Proof. reflexivity. Qed.
Example normalize_135 : Qred <$> normalize [1; 3; 5] = [0; 1 # 2; 1].
Proof. reflexivity. Qed.
Example normalize_111 : normalize [1; 1; 1] = [0; 0; 0].
Proof. reflexivity. Qed.
Example slice_to_ex : slice_to [1; 2; 3; 4]%nat 2 = [1; 2]%nat ∧ slice_to [1; 2; 3; 4]%nat (-1) = [1; 2; 3]%nat.
Proof. split; reflexivity. Qed.
Example sort_desc_ex :
  sort_desc (λ p : Q * nat, p.1) [(1, 0%nat); (2, 1%nat); (1, 2%nat); (2, 3%nat)]
  = [(2, 1%nat); (2, 3%nat); (1, 0%nat); (1, 2%nat)].
Proof. reflexivity. Qed.

(** The expansion of ["sample pdf"] over the content
    ["Download sample-3pp.pdf here"]. *)
Example expansion_ex :
  elements (expanded_terms "sample pdf" [download_hit]) = ["sample-3pp"; "sample"; "pdf"]
  ∧ ∃ s, _keyword_search "sample pdf" [download_hit] = Ok {[1%positive := s]}
         ∧ (1 # 2) * (2 # 3) < s.
Proof.
  split; [reflexivity|]. eexists. split; [vm_compute; reflexivity | reflexivity].
Qed.

(** Fusion with the weights 0.7 and 0.3: the semantic scores 1 and 0 with the
    lexical scores 0 and 1 give the combined scores 0.7 and 0.3. *)
Example fusion_ex :
  let config := {| semantic_weight := 7 # 10; keyword_weight := 3 # 10;
                   top_k := 2; rerank := false |} in
  let a := make_result 1 "alpha" ∅ (9 # 10) in
  let b := make_result 2 "beta" ∅ (5 # 10) in
  omap (λ r, Qred <$> combined_score_of r)
    (_combine_results config (normalize_results [a; b]) {[1%positive := 0; 2%positive := 1]})
  = [7 # 10; 3 # 10].
Proof. reflexivity. Qed.

(** Scoring a chunk with a malformed file name raises; without tokens no
    chunk is looked at. *)
Example malformed_ex :
  _keyword_search "ab" [numbered_hit] = Raise AttributeError
  ∧ _keyword_search "a" [numbered_hit] = Ok ∅.
Proof. split; reflexivity. Qed.
(** ** Facts about the string methods *)

Section StrFacts.

Lemma count_go_pos_contains sub s k :
  (0 < Str.count_go k s sub)%nat → Str.contains sub s = true.
Proof.
  revert k. induction s as [|c s IH]; intros k; simpl.
  - destruct sub; simpl; [done | lia].
  - destruct k as [|k].
    + destruct (Str.startswith (String c s) sub) eqn:E; [done|].
      intros H. rewrite (IH _ H). apply orb_true_r.
    + intros H. rewrite (IH _ H). apply orb_true_r.
Qed.

Lemma contains_count_pos sub s :
  Str.contains sub s = true → (0 < Str.count s sub)%nat.
Proof.
  unfold Str.count. induction s as [|c s IH]; simpl.
  - destruct sub; simpl; [lia | done].
  - destruct (Str.startswith (String c s) sub) eqn:E; [lia|].
    simpl. exact IH.
Qed.

(** [s.count(sub) > 0] exactly when [sub in s]. *)
Lemma count_pos_iff sub s :
  (0 <? Str.count s sub)%nat = Str.contains sub s.
Proof.
  destruct (Str.contains sub s) eqn:E.
  - apply Nat.ltb_lt. by apply contains_count_pos.
  - apply Nat.ltb_ge. destruct (Str.count s sub) eqn:C; [lia|].
    assert (Str.contains sub s = true); [|congruence].
    apply (count_go_pos_contains sub s 0). unfold Str.count in C. lia.
Qed.

Lemma contains_empty_r sub : sub ≠ EmptyString → Str.contains sub EmptyString = false.
Proof. by destruct sub. Qed.

Lemma count_empty_r sub : sub ≠ EmptyString → Str.count EmptyString sub = 0%nat.
Proof. by destruct sub. Qed.

Lemma app_cons a (p s : string) : String a p +:+ s = String a (p +:+ s).
Proof. reflexivity. Qed.

Lemma app_nil_l (s : string) : EmptyString +:+ s = s.
Proof. reflexivity. Qed.

Lemma startswith_app s p : Str.startswith (p +:+ s) p = true.
Proof.
  induction p as [|a p IH]; [by destruct s|].
  rewrite app_cons. simpl. by rewrite bool_decide_eq_true_2.
Qed.

Lemma contains_app_r sub pre s :
  Str.contains sub s = true → Str.contains sub (pre +:+ s) = true.
Proof.
  intros H. induction pre as [|a pre IH]; [done|].
  rewrite app_cons. simpl. rewrite IH. apply orb_true_r.
Qed.

Lemma contains_startswith sub s :
  Str.startswith s sub = true → Str.contains sub s = true.
Proof. intros H. destruct s; simpl in *; by rewrite H. Qed.

End StrFacts.
(** ** The sort is a stable descending sort *)

Lemma Qlt_bool_true a b : Qlt_bool a b = true → a < b.
Proof.
  unfold Qlt_bool. intros H. apply negb_true_iff in H.
  apply Qnot_le_lt. intros Hle. apply Qle_bool_iff in Hle. congruence.
Qed.

Lemma Qlt_bool_false a b : Qlt_bool a b = false → b <= a.
Proof.
  unfold Qlt_bool. intros H. apply negb_false_iff in H. by apply Qle_bool_iff.
Qed.

Section SortFacts.
Context {A : Type} (key : A → Q).

Lemma insert_desc_perm x l : insert_desc key x l ≡ₚ x :: l.
Proof.
  induction l as [|y l IH]; simpl; [done|].
  destruct (Qlt_bool (key x) (key y)); [|done].
  rewrite IH. apply Permutation_swap.
Qed.

Lemma sort_desc_perm l : sort_desc key l ≡ₚ l.
Proof.
  induction l as [|x l IH]; simpl; [done|].
  by rewrite insert_desc_perm, IH.
Qed.

Lemma insert_desc_sorted x l :
  StronglySorted (λ a b, key b <= key a) l →
  StronglySorted (λ a b, key b <= key a) (insert_desc key x l).
Proof.
  induction 1 as [|y l Hl IH Hy]; simpl.
  - repeat constructor.
  - destruct (Qlt_bool (key x) (key y)) eqn:E.
    + constructor; [done|].
      rewrite insert_desc_perm. constructor; [|done].
      apply Qlt_le_weak. by apply Qlt_bool_true.
    + apply Qlt_bool_false in E.
      constructor; [by constructor|].
      constructor; [done|].
      eapply Forall_impl; [exact Hy|]. simpl. intros z Hz.
      by apply Qle_trans with (key y).
Qed.

Lemma sort_desc_sorted l :
  StronglySorted (λ a b, key b <= key a) (sort_desc key l).
Proof.
  induction l as [|x l IH]; simpl; [constructor|]. by apply insert_desc_sorted.
Qed.

(** Insertion moves [x] only past elements of a strictly greater key. *)
Lemma insert_desc_filter c x l :
  filter (λ r, Qeq_bool (key r) c) (insert_desc key x l) =
  filter (λ r, Qeq_bool (key r) c) (x :: l).
Proof.
  induction l as [|y l IH]; simpl; [done|].
  destruct (Qlt_bool (key x) (key y)) eqn:E; [|done].
  apply Qlt_bool_true in E.
  rewrite (filter_cons _ y), IH, !filter_cons.
  destruct (decide (Qeq_bool (key y) c)) as [Hy|Hy];
    destruct (decide (Qeq_bool (key x) c)) as [Hx|Hx]; try done.
  apply Is_true_true, Qeq_bool_iff in Hy. apply Is_true_true, Qeq_bool_iff in Hx.
  rewrite Hx, Hy in E. by apply Qlt_irrefl in E.
Qed.

Lemma sort_desc_filter c l :
  filter (λ r, Qeq_bool (key r) c) (sort_desc key l) =
  filter (λ r, Qeq_bool (key r) c) l.
Proof.
  induction l as [|x l IH]; simpl; [done|].
  by rewrite insert_desc_filter, !filter_cons, IH.
Qed.

Lemma sort_desc_stable l : stable_descending key l (sort_desc key l).
Proof.
  split; [apply sort_desc_perm|]. split; [apply sort_desc_sorted|].
  intros c. apply sort_desc_filter.
Qed.

Lemma filter_key_head (x : A) l :
  filter (λ r, Qeq_bool (key r) (key x)) (x :: l)
  = x :: filter (λ r, Qeq_bool (key r) (key x)) l.
Proof.
  rewrite filter_cons_True; [done|]. apply Is_true_true, Qeq_bool_iff. reflexivity.
Qed.

(** A descending list is determined by its classes of equal keys: there is
    one stable descending arrangement of a list, and every stable descending
    sort returns it. *)
Lemma descending_classes_eq out1 out2 :
  StronglySorted (λ a b, key b <= key a) out1 →
  StronglySorted (λ a b, key b <= key a) out2 →
  (∀ c : Q, filter (λ r, Qeq_bool (key r) c) out1 = filter (λ r, Qeq_bool (key r) c) out2) →
  out1 = out2.
Proof.
  intros H1. revert out2. induction H1 as [|x t1 Ht1 IH Hx]; intros out2 H2 Hc.
  - destruct out2 as [|y t2]; [done|].
    specialize (Hc (key y)). rewrite filter_key_head in Hc. done.
  - destruct H2 as [|y t2 Ht2 Hy].
    { specialize (Hc (key x)). rewrite filter_key_head in Hc. done. }
    assert (key x <= key y) as Hxy.
    { pose proof (Hc (key x)) as Hcx. rewrite filter_key_head in Hcx.
      assert (x ∈ y :: t2) as [->|Hin]%elem_of_cons.
      { eapply (proj1 (list_elem_of_filter _ _ _)). rewrite <- Hcx.
        apply elem_of_cons. by left. }
      - apply Qle_refl.
      - by apply (proj1 (Forall_forall _ _) Hy). }
    assert (key y <= key x) as Hyx.
    { pose proof (Hc (key y)) as Hcy. rewrite filter_key_head in Hcy.
      assert (y ∈ x :: t1) as [->|Hin]%elem_of_cons.
      { eapply (proj1 (list_elem_of_filter _ _ _)). rewrite Hcy.
        apply elem_of_cons. by left. }
      - apply Qle_refl.
      - by apply (proj1 (Forall_forall _ _) Hx). }
    assert (x = y) as <-.
    { pose proof (Hc (key x)) as Hcx. rewrite filter_key_head in Hcx.
      rewrite filter_cons_True in Hcx; [by injection Hcx|].
      apply Is_true_true, Qeq_bool_iff. by apply Qle_antisym. }
    f_equal. apply IH; [done|]. intros c. specialize (Hc c).
    rewrite !filter_cons in Hc. destruct (decide _); [by injection Hc | done].
Qed.

Lemma stable_descending_unique l out1 out2 :
  stable_descending key l out1 → stable_descending key l out2 → out1 = out2.
Proof.
  intros (_ & Hs1 & Hf1) (_ & Hs2 & Hf2).
  apply descending_classes_eq; [done..|]. intros c. by rewrite Hf1, Hf2.
Qed.

Lemma elem_of_sort_desc x l : x ∈ sort_desc key l ↔ x ∈ l.
Proof. by rewrite sort_desc_perm. Qed.

Lemma length_sort_desc l : length (sort_desc key l) = length l.
Proof. by rewrite sort_desc_perm. Qed.

End SortFacts.

(** Sorting the images under [f] is the image of sorting by the key of the
    image. *)
Lemma insert_desc_fmap {A B} (key : B → Q) (f : A → B) x l :
  insert_desc key (f x) (f <$> l) = f <$> insert_desc (key ∘ f) x l.
Proof.
  induction l as [|y l IH]; [done|]. rewrite fmap_cons. simpl.
  destruct (Qlt_bool (key (f x)) (key (f y))); [|done].
  by rewrite IH.
Qed.

Lemma sort_desc_fmap {A B} (key : B → Q) (f : A → B) l :
  sort_desc key (f <$> l) = f <$> sort_desc (key ∘ f) l.
Proof.
  induction l as [|x l IH]; [done|]. rewrite fmap_cons. simpl.
  by rewrite IH, insert_desc_fmap.
Qed.

(** Two stable sorts in a row: elements that tie under both keys keep their
    order. *)
Lemma sort_desc_twice_filter {A} (k1 k2 : A → Q) c1 c2 l :
  filter (λ x, Qeq_bool (k1 x) c1 && Qeq_bool (k2 x) c2) (sort_desc k2 (sort_desc k1 l))
  = filter (λ x, Qeq_bool (k1 x) c1 && Qeq_bool (k2 x) c2) l.
Proof.
  assert (∀ l' : list A,
            filter (λ x, Qeq_bool (k1 x) c1 && Qeq_bool (k2 x) c2) l'
            = filter (λ x, Qeq_bool (k1 x) c1) (filter (λ x, Qeq_bool (k2 x) c2) l')) as Hsplit.
  { intros l'. induction l' as [|x l' IH]; [done|].
    rewrite (filter_cons (λ x, Is_true (Qeq_bool (k2 x) c2))).
    rewrite filter_cons.
    destruct (decide (Qeq_bool (k2 x) c2)) as [H2|H2];
      [rewrite filter_cons|]; destruct (decide (Qeq_bool (k1 x) c1)) as [H1|H1];
      rewrite ?IH; destruct (Qeq_bool (k1 x) c1), (Qeq_bool (k2 x) c2);
      simpl in *; try done; case_decide; done. }
  rewrite !Hsplit, sort_desc_filter.
  rewrite <- !Hsplit.
  assert (∀ l' : list A,
            filter (λ x, Qeq_bool (k1 x) c1 && Qeq_bool (k2 x) c2) l'
            = filter (λ x, Qeq_bool (k2 x) c2) (filter (λ x, Qeq_bool (k1 x) c1) l')) as Hsplit'.
  { intros l'. induction l' as [|x l' IH]; [done|].
    rewrite (filter_cons (λ x, Is_true (Qeq_bool (k1 x) c1))).
    rewrite filter_cons.
    destruct (decide (Qeq_bool (k1 x) c1)) as [H1|H1];
      [rewrite filter_cons|]; destruct (decide (Qeq_bool (k2 x) c2)) as [H2|H2];
      rewrite ?IH; destruct (Qeq_bool (k1 x) c1), (Qeq_bool (k2 x) c2);
      simpl in *; try done; case_decide; done. }
  by rewrite !Hsplit', sort_desc_filter.
Qed.

(** ** Normalisation *)

Section NormalizeFacts.

Lemma foldl_Qmax_ge a xs :
  a <= foldl Qmax a xs ∧ ∀ y, y ∈ xs → y <= foldl Qmax a xs.
Proof.
  revert a. induction xs as [|x xs IH]; intros a; simpl.
  - split; [apply Qle_refl|]. intros y Hy. by apply elem_of_nil in Hy.
  - destruct (IH (Qmax a x)) as [H1 H2]. split.
    + eapply Qle_trans; [apply Q.le_max_l | exact H1].
    + intros y [->|Hy]%elem_of_cons; [|by apply H2].
      eapply Qle_trans; [apply Q.le_max_r | exact H1].
Qed.

Lemma foldl_Qmin_le a xs :
  foldl Qmin a xs <= a ∧ ∀ y, y ∈ xs → foldl Qmin a xs <= y.
Proof.
  revert a. induction xs as [|x xs IH]; intros a; simpl.
  - split; [apply Qle_refl|]. intros y Hy. by apply elem_of_nil in Hy.
  - destruct (IH (Qmin a x)) as [H1 H2]. split.
    + eapply Qle_trans; [exact H1 | apply Q.le_min_l].
    + intros y [->|Hy]%elem_of_cons; [|by apply H2].
      eapply Qle_trans; [exact H1 | apply Q.le_min_r].
Qed.

Lemma py_max_ge x xs s : s ∈ x :: xs → s <= py_max x xs.
Proof.
  unfold py_max. destruct (foldl_Qmax_ge x xs) as [H1 H2].
  intros [->|H]%elem_of_cons; auto.
Qed.

Lemma py_min_le x xs s : s ∈ x :: xs → py_min x xs <= s.
Proof.
  unfold py_min. destruct (foldl_Qmin_le x xs) as [H1 H2].
  intros [->|H]%elem_of_cons; auto.
Qed.

Lemma py_min_le_max x xs : py_min x xs <= py_max x xs.
Proof.
  apply Qle_trans with x; [apply py_min_le | apply py_max_ge]; apply elem_of_cons; by left.
Qed.

(** The divisor of the normalisation is never zero. *)
Lemma score_range_nonzero max_score min_score :
  ¬ score_range max_score min_score == 0.
Proof.
  unfold score_range. destruct (Qeq_bool max_score min_score) eqn:E; simpl.
  - discriminate.
  - apply Qeq_bool_neq in E. intros H. apply E. lra.
Qed.

Lemma score_range_pos max_score min_score :
  min_score <= max_score → 0 < score_range max_score min_score.
Proof.
  intros Hle. unfold score_range.
  destruct (Qeq_bool max_score min_score) eqn:E; simpl; [reflexivity|].
  apply Qeq_bool_neq in E.
  destruct (Qlt_le_dec min_score max_score) as [Hlt|Hge]; [lra|].
  exfalso. apply E. by apply Qle_antisym.
Qed.

Lemma semantic_score_of_set v r :
  semantic_score_of (set_metadata "semantic_score" v r) = Some v.
Proof. unfold semantic_score_of. simpl. apply lookup_insert_eq. Qed.

Lemma normalize_results_cons r rest :
  normalize_results (r :: rest) =
  (λ result,
     set_metadata "semantic_score"
       ((score result - py_min (score r) (score <$> rest))
        / score_range (py_max (score r) (score <$> rest))
                      (py_min (score r) (score <$> rest))) result)
  <$> (r :: rest).
Proof. reflexivity. Qed.

Lemma length_normalize_results pool :
  length (normalize_results pool) = length pool.
Proof. destruct pool; [done|]. rewrite normalize_results_cons. by rewrite length_fmap. Qed.

Lemma omap_semantic_score_of_set (f : SearchResult → Q) (l : list SearchResult) :
  omap semantic_score_of ((λ r, set_metadata "semantic_score" (f r) r) <$> l) = f <$> l.
Proof.
  induction l as [|r l IH]; [done|].
  rewrite !fmap_cons. change (omap ?g (?a :: ?t)) with
    (match g a with Some y => y :: omap g t | None => omap g t end).
  rewrite semantic_score_of_set. by rewrite IH.
Qed.

(** The closed form of [normalize]. *)
Lemma normalize_cons x xs :
  normalize (x :: xs) =
  (λ s, (s - py_min x xs) / score_range (py_max x xs) (py_min x xs)) <$> (x :: xs).
Proof.
  unfold normalize. rewrite fmap_cons, normalize_results_cons.
  rewrite (omap_semantic_score_of_set
             (λ result, (score result - _) / _) (bare_result x :: (bare_result <$> xs))).
  assert (score <$> (bare_result <$> xs) = xs) as ->.
  { clear. induction xs as [|y ys IH]; [done|]. rewrite !fmap_cons. by f_equal. }
  change (score (bare_result x)) with x.
  generalize (py_min x xs) (score_range (py_max x xs) (py_min x xs)). intros mn rg.
  rewrite !fmap_cons. f_equal.
  induction xs as [|y ys IH]; [done|]. rewrite !fmap_cons. by f_equal.
Qed.

(** [normalize] is the normaliser of the search: the semantic scores of a
    normalised pool are [normalize] of its raw scores. *)
Lemma normalize_results_scores pool :
  omap semantic_score_of (normalize_results pool) = normalize (score <$> pool).
Proof.
  destruct pool as [|r rest]; [done|].
  rewrite fmap_cons, normalize_cons, normalize_results_cons.
  rewrite (omap_semantic_score_of_set (λ result, (score result - _) / _) (r :: rest)).
  generalize (py_min (score r) (score <$> rest))
    (score_range (py_max (score r) (score <$> rest)) (py_min (score r) (score <$> rest))).
  intros mn rg. rewrite !fmap_cons. f_equal.
  induction rest as [|y ys IH]; [done|]. rewrite !fmap_cons. by f_equal.
Qed.

Lemma normalized_in_unit x xs s :
  s ∈ x :: xs →
  0 <= (s - py_min x xs) / score_range (py_max x xs) (py_min x xs) <= 1.
Proof.
  intros Hs.
  pose proof (py_min_le x xs s Hs) as Hmin.
  pose proof (py_max_ge x xs s Hs) as Hmax.
  pose proof (score_range_pos _ _ (py_min_le_max x xs)) as Hpos.
  split.
  - apply Qle_shift_div_l; [done|]. lra.
  - apply Qle_shift_div_r; [done|].
    unfold score_range in *.
    destruct (Qeq_bool (py_max x xs) (py_min x xs)) eqn:E; simpl in *; [|lra].
    apply Qeq_bool_iff in E. lra.
Qed.

(** Every result of a normalised pool carries a semantic score in [0,1]. *)
Lemma normalize_results_unit pool r :
  r ∈ normalize_results pool →
  ∃ s, semantic_score_of r = Some s ∧ 0 <= s <= 1.
Proof.
  destruct pool as [|r0 rest]; [by intros ?%elem_of_nil|].
  rewrite normalize_results_cons. intros (r1 & -> & Hr1)%list_elem_of_fmap.
  eexists. split; [apply semantic_score_of_set|].
  apply normalized_in_unit.
  replace (score r0 :: (score <$> rest)) with (score <$> (r0 :: rest)) by done.
  by apply list_elem_of_fmap_2.
Qed.

Lemma normalize_results_chunk pool r :
  r ∈ normalize_results pool → ∃ r0, r0 ∈ pool ∧ chunk r = chunk r0.
Proof.
  destruct pool as [|r0 rest]; [by intros ?%elem_of_nil|].
  rewrite normalize_results_cons. intros (r1 & -> & Hr1)%list_elem_of_fmap.
  by exists r1.
Qed.

Lemma normalize_results_chunks pool :
  chunk <$> normalize_results pool = chunk <$> pool.
Proof.
  destruct pool as [|r0 rest]; [done|].
  rewrite normalize_results_cons, <- list_fmap_compose. done.
Qed.

End NormalizeFacts.

(** ** Keyword scoring *)

Section KeywordFacts.

Lemma filter_none {A} (P : A → Prop) `{!∀ x, Decision (P x)} (l : list A) :
  (∀ x, x ∈ l → ¬ P x) → filter P l = [].
Proof.
  induction l as [|x l IH]; intros Hall; [done|].
  rewrite filter_cons_False; [|apply Hall; apply elem_of_cons; by left].
  apply IH. intros y Hy. apply Hall. apply elem_of_cons. by right.
Qed.

Lemma int_div_nonneg a b : 0 <= int_div a b.
Proof.
  unfold int_div. destruct b as [|b].
  - simpl. unfold Qdiv, Qinv. simpl. lra.
  - apply Qle_shift_div_l.
    + change 0 with (inject_Z 0). rewrite <- Zlt_Qlt. lia.
    + rewrite Qmult_0_l. change 0 with (inject_Z 0). rewrite <- Zle_Qle. lia.
Qed.

Lemma int_div_le_1 a b : (a ≤ b)%nat → int_div a b <= 1.
Proof.
  intros Hab. unfold int_div. destruct b as [|b].
  - simpl. unfold Qdiv, Qinv. simpl. lra.
  - apply Qle_shift_div_r.
    + change 0 with (inject_Z 0). rewrite <- Zlt_Qlt. lia.
    + rewrite Qmult_1_l. rewrite <- Zle_Qle. lia.
Qed.

Lemma int_div_pos a b : (0 < a)%nat → (0 < b)%nat → 0 < int_div a b.
Proof.
  intros Ha Hb. unfold int_div. apply Qlt_shift_div_l.
  - change 0 with (inject_Z 0). rewrite <- Zlt_Qlt. lia.
  - rewrite Qmult_0_l. change 0 with (inject_Z 0). rewrite <- Zlt_Qlt. lia.
Qed.

Lemma Qmin_nonneg a b : 0 <= a → 0 <= b → 0 <= Qmin a b.
Proof. intros. by apply Q.min_glb. Qed.

(** The score lies between 0 and 1.1 when no more terms match than there
    are. *)
Lemma score_of_counters_bounds n c :
  (term_matches c ≤ n)%nat → 0 <= score_of_counters n c <= 11 # 10.
Proof.
  intros Hle. unfold score_of_counters.
  destruct (0 <? term_matches c)%nat; [|lra].
  pose proof (int_div_nonneg (term_matches c) n).
  pose proof (int_div_le_1 _ _ Hle).
  pose proof (Qmin_nonneg _ 1 (int_div_nonneg (total_term_count c) (n * 5)) ltac:(lra)).
  pose proof (Q.le_min_r (int_div (total_term_count c) (n * 5)) 1).
  pose proof (Qmin_nonneg _ (3 # 10) (int_div_nonneg (metadata_matches c) n) ltac:(lra)).
  pose proof (Q.le_min_r (int_div (metadata_matches c) n) (3 # 10)).
  simpl. lra.
Qed.

Lemma score_of_counters_zero n c :
  (term_matches c ≤ n)%nat →
  (score_of_counters n c == 0 ↔ term_matches c = 0%nat).
Proof.
  intros Hle. unfold score_of_counters.
  destruct (0 <? term_matches c)%nat eqn:E.
  - apply Nat.ltb_lt in E. split; [|lia]. intros H0. exfalso.
    pose proof (int_div_pos (term_matches c) n E ltac:(lia)).
    pose proof (Qmin_nonneg _ 1 (int_div_nonneg (total_term_count c) (n * 5)) ltac:(lra)).
    pose proof (Qmin_nonneg _ (3 # 10) (int_div_nonneg (metadata_matches c) n) ltac:(lra)).
    simpl in H0. lra.
  - apply Nat.ltb_ge in E. split; [lia | reflexivity].
Qed.

Lemma count_term_matches_le cl mt acc l :
  (term_matches (foldl (count_term cl mt) acc l) ≤ term_matches acc + length l)%nat.
Proof.
  revert acc. induction l as [|t l IH]; intros acc; simpl; [lia|].
  etrans; [apply IH|]. unfold count_term.
  destruct (0 <? _)%nat; simpl; lia.
Qed.

Lemma count_terms_matches_le cl mt terms :
  (term_matches (count_terms cl mt terms) ≤ size terms)%nat.
Proof.
  unfold count_terms. etrans; [apply count_term_matches_le|]. simpl. done.
Qed.

(** The loop over the terms computes the three counts. *)
Lemma count_term_foldl cl mt acc l :
  Forall (λ t, t ≠ EmptyString) l →
  foldl (count_term cl mt) acc l =
  {| term_matches := term_matches acc
       + length (filter (λ t, Str.contains t cl || Str.contains t mt) l);
     total_term_count := total_term_count acc
       + sum_list ((λ t, Str.count cl t + Str.count mt t)%nat <$> l);
     metadata_matches := metadata_matches acc
       + length (filter (λ t, Str.contains t mt) l) |}.
Proof.
  intros Hl. revert acc. induction Hl as [|t l Ht Hl IH]; intros acc.
  - simpl. destruct acc; simpl. f_equal; lia.
  - cbn [foldl]. rewrite IH. rewrite !filter_cons, fmap_cons. cbn [sum_list].
    assert ((if bool_decide (mt = EmptyString) then 0%nat else Str.count mt t) = Str.count mt t) as Hmeta.
    { case_bool_decide as Hmt; [|done]. subst mt. by rewrite count_empty_r. }
    unfold count_term. rewrite Hmeta.
    pose proof (count_pos_iff t cl) as Hc. pose proof (count_pos_iff t mt) as Hm.
    destruct (Str.contains t cl) eqn:Ec; destruct (Str.contains t mt) eqn:Em;
      simpl in *;
      [ apply Nat.ltb_lt in Hc; apply Nat.ltb_lt in Hm
      | apply Nat.ltb_lt in Hc; apply Nat.ltb_ge in Hm
      | apply Nat.ltb_ge in Hc; apply Nat.ltb_lt in Hm
      | apply Nat.ltb_ge in Hc; apply Nat.ltb_ge in Hm ].
    all: destruct (0 <? Str.count cl t + Str.count mt t)%nat eqn:E;
      [apply Nat.ltb_lt in E | apply Nat.ltb_ge in E]; try lia.
    all: destruct (0 <? Str.count mt t)%nat eqn:E';
      [apply Nat.ltb_lt in E' | apply Nat.ltb_ge in E']; try lia.
    all: repeat case_decide; try done; simpl; f_equal; lia.
Qed.

Lemma count_terms_spec cl mt terms :
  EmptyString ∉ terms →
  count_terms cl mt terms =
  {| term_matches := matched_terms cl mt terms;
     total_term_count := total_occurrences cl mt terms;
     metadata_matches := metadata_hits mt terms |}.
Proof.
  intros Hne. unfold count_terms. rewrite count_term_foldl; [done|].
  apply Forall_forall. intros t Ht%elem_of_elements ->. done.
Qed.

Lemma keyword_score_bounds terms c s :
  keyword_score terms c = Ok s → 0 <= s <= 11 # 10.
Proof.
  unfold keyword_score. destruct (metadata_text_of (chunk_metadata c)) as [mt|e]; [|done].
  simpl. intros [= <-]. apply score_of_counters_bounds, count_terms_matches_le.
Qed.

(** The keyword score of a chunk, in terms of the counts. *)
Lemma keyword_score_spec terms c mt :
  EmptyString ∉ terms →
  metadata_text_of (chunk_metadata c) = Ok mt →
  let cl := Str.lower (content c) in
  let n := size terms in
  let matched := matched_terms cl mt terms in
  keyword_score terms c =
  Ok (if (0 <? matched)%nat
      then lexical_formula n matched (total_occurrences cl mt terms) (metadata_hits mt terms)
      else 0)
  ∧ (matched ≤ n)%nat.
Proof.
  intros Hne Hmt cl n matched. unfold keyword_score. rewrite Hmt. simpl.
  fold cl. pose proof (count_terms_matches_le cl mt terms) as Hle.
  rewrite count_terms_spec in * by done. simpl in Hle. split; [|done].
  unfold score_of_counters. simpl. done.
Qed.

End KeywordFacts.

(** ** The table of keyword scores *)

Section ScoreTable.

Lemma chunks_wf_cons c cs : chunks_wf (c :: cs) → chunks_wf cs.
Proof.
  intros H c1 c2 H1 H2. apply H; by apply elem_of_cons; right.
Qed.

Lemma score_results_values terms pool acc m :
  score_results terms pool acc = Ok m →
  ∀ i s, m !! i = Some s →
    acc !! i = Some s ∨
    ∃ r, r ∈ pool ∧ chunk_id (chunk r) = i ∧ keyword_score terms (chunk r) = Ok s.
Proof.
  revert acc. induction pool as [|r0 rest IH]; intros acc; simpl.
  - intros [= <-] i s Hi. by left.
  - destruct (keyword_score terms (chunk r0)) as [s0|e] eqn:E; simpl; [|done].
    intros Hm i s Hi. destruct (IH _ Hm i s Hi) as [Hacc|(r & Hr & Hid & Hs)].
    + destruct (decide (chunk_id (chunk r0) = i)) as [<-|Hne].
      * rewrite lookup_insert_eq in Hacc. injection Hacc as <-.
        right. exists r0. split; [apply elem_of_cons; by left | done].
      * rewrite lookup_insert_ne in Hacc by done. by left.
    + right. exists r. split; [apply elem_of_cons; by right | done].
Qed.

Lemma score_results_dom terms pool acc m i :
  score_results terms pool acc = Ok m → is_Some (acc !! i) → is_Some (m !! i).
Proof.
  revert acc. induction pool as [|r0 rest IH]; intros acc; simpl.
  - by intros [= <-].
  - destruct (keyword_score terms (chunk r0)) as [s0|e]; simpl; [|done].
    intros Hm Hi. apply (IH _ Hm).
    destruct (decide (chunk_id (chunk r0) = i)) as [<-|Hne].
    + rewrite lookup_insert_eq. eauto.
    + by rewrite lookup_insert_ne.
Qed.

(** After the loop the table holds, under the identity of each chunk of the
    pool, the keyword score of that chunk. *)
Lemma score_results_lookup terms pool acc m r :
  pool_wf pool →
  score_results terms pool acc = Ok m →
  r ∈ pool →
  ∃ s, keyword_score terms (chunk r) = Ok s ∧ m !! chunk_id (chunk r) = Some s.
Proof.
  unfold pool_wf. revert acc. induction pool as [|r0 rest IH]; intros acc Hwf; simpl.
  - by intros _ ?%elem_of_nil.
  - destruct (keyword_score terms (chunk r0)) as [s0|e] eqn:E; simpl; [|done].
    intros Hm [->|Hr]%elem_of_cons.
    + exists s0. split; [done|].
      destruct (score_results_dom _ _ _ _ (chunk_id (chunk r0)) Hm) as [s' Hs'].
      { rewrite lookup_insert_eq. eauto. }
      destruct (score_results_values _ _ _ _ Hm _ _ Hs') as [Hacc|(r & Hr & Hid & Hs)].
      * rewrite lookup_insert_eq in Hacc. by injection Hacc as <-.
      * assert (chunk r = chunk r0) as Heq.
        { apply Hwf; [|by apply elem_of_cons; left|done].
          apply elem_of_cons; right. by apply list_elem_of_fmap_2. }
        rewrite Heq in Hs. congruence.
    + apply (IH _ (chunks_wf_cons _ _ Hwf) Hm Hr).
Qed.

Lemma query_terms_of_empty : query_terms_of EmptyString = [].
Proof. reflexivity. Qed.

(** No tokens: the table is empty, whatever the pool. *)
Lemma keyword_search_no_tokens query pool :
  keyword_tokens query = [] → _keyword_search query pool = Ok ∅.
Proof.
  unfold keyword_tokens, keyword_query, _keyword_search. intros H.
  case_bool_decide; [done|]. rewrite H. done.
Qed.

Lemma keyword_search_tokens query pool :
  keyword_tokens query ≠ [] →
  _keyword_search query pool = score_results (expanded_terms query pool) pool ∅.
Proof.
  unfold expanded_terms, keyword_tokens, keyword_query, _keyword_search. intros H.
  case_bool_decide as Hq.
  - rewrite Hq in H. by rewrite query_terms_of_empty in H.
  - case_bool_decide; done.
Qed.

Lemma keyword_search_lookup query pool scores r :
  pool_wf pool → keyword_tokens query ≠ [] →
  _keyword_search query pool = Ok scores →
  r ∈ pool →
  ∃ s, keyword_score (expanded_terms query pool) (chunk r) = Ok s
       ∧ scores !! chunk_id (chunk r) = Some s.
Proof.
  intros Hwf Hq. rewrite keyword_search_tokens by done.
  intros Hs Hr. by eapply score_results_lookup.
Qed.

(** Every score of the table lies between 0 and 1.1. *)
Lemma keyword_search_values query pool scores i s :
  _keyword_search query pool = Ok scores → scores !! i = Some s → 0 <= s <= 11 # 10.
Proof.
  destruct (decide (keyword_tokens query = [])) as [H0|Hq].
  - rewrite keyword_search_no_tokens by done. intros [= <-]. by rewrite lookup_empty.
  - rewrite keyword_search_tokens by done. intros Hs Hi.
    destruct (score_results_values _ _ _ _ Hs _ _ Hi) as [Hacc|(r & _ & _ & Hr)].
    + by rewrite lookup_empty in Hacc.
    + by eapply keyword_score_bounds.
Qed.

End ScoreTable.

(** ** Term expansion *)

Section ExpandFacts.

Lemma elem_of_add_all t names (terms : gset string) :
  t ∈ add_all names terms ↔ t ∈ names ∨ t ∈ terms.
Proof.
  unfold add_all. revert terms. induction names as [|n names IH]; intros terms; simpl.
  - split; [by right | intros [?%elem_of_nil|?]; done].
  - rewrite IH, elem_of_cons. set_solver.
Qed.

Lemma elem_of_expand_pool t (terms : gset string) pool :
  t ∈ foldl (λ acc result, add_all (pdf_names result) acc) terms pool ↔
  t ∈ terms ∨ ∃ r, r ∈ pool ∧ t ∈ pdf_names r.
Proof.
  revert terms. induction pool as [|r0 rest IH]; intros terms; simpl.
  - split; [by left | intros [?|(r & ?%elem_of_nil & _)]; done].
  - rewrite IH, elem_of_add_all. split.
    + intros [[H|H]|(r & Hr & H)]; [right; exists r0|by left|right; exists r];
        (split; [apply elem_of_cons; by auto | done]).
    + intros [H|(r & [->|Hr]%elem_of_cons & H)]; [by left; right | by left; left |].
      right. by exists r.
Qed.

(** What the expanded set holds: the tokens, the literals, and the names
    taken from the pool. *)
Lemma elem_of_expand_terms t ql qt pool :
  t ∈ expand_terms ql qt pool ↔
  t ∈ qt
  ∨ (Str.contains "sample" ql = true ∧ (t = "sample" ∨ t = "sample-3pp"))
  ∨ (Str.contains "pdf" ql = true ∧ (t = "pdf" ∨ ∃ r, r ∈ pool ∧ t ∈ pdf_names r)).
Proof.
  unfold expand_terms.
  destruct (Str.contains "pdf" ql) eqn:Ep; destruct (Str.contains "sample" ql) eqn:Es;
    simpl; rewrite ?elem_of_expand_pool; set_solver.
Qed.

Lemma expand_terms_superset ql qt pool :
  list_to_set qt ⊆ expand_terms ql qt pool.
Proof.
  intros t Ht. apply elem_of_expand_terms. left. set_solver.
Qed.

(** Without ["pdf"] in the query the expanded set does not depend on the
    pool. *)
Lemma expand_terms_no_pdf ql qt pool1 pool2 :
  Str.contains "pdf" ql = false →
  expand_terms ql qt pool1 = expand_terms ql qt pool2.
Proof. unfold expand_terms. by intros ->. Qed.

Lemma expand_terms_no_trigger ql qt pool :
  Str.contains "pdf" ql = false → Str.contains "sample" ql = false →
  expand_terms ql qt pool = list_to_set qt.
Proof. unfold expand_terms. by intros -> ->. Qed.

Lemma elem_of_pdf_names name r :
  name ∈ pdf_names r ↔
  (3 < Str.len name)%nat ∧
  ∃ pdf_ref, pdf_ref ∈ take 3 (Re.findall_pdf (Str.lower (content (chunk r))))
             ∧ name = Str.replace pdf_ref ".pdf" EmptyString.
Proof.
  unfold pdf_names. rewrite list_elem_of_filter, list_elem_of_fmap. naive_solver.
Qed.

Lemma length_pdf_names r : (length (pdf_names r) ≤ 3)%nat.
Proof.
  unfold pdf_names. etrans; [apply length_filter|].
  rewrite length_fmap, length_take. lia.
Qed.

Lemma elem_of_query_terms_of t ql : t ∈ query_terms_of ql → (1 < Str.len t)%nat.
Proof. unfold query_terms_of. by intros [? _]%list_elem_of_filter. Qed.

(** No term of the expanded set is the empty string. *)
Lemma expanded_terms_nonempty query pool : EmptyString ∉ expanded_terms query pool.
Proof.
  unfold expanded_terms. intros H. apply elem_of_expand_terms in H.
  destruct H as [H|[[_ [H|H]]|[_ [H|(r & _ & H)]]]]; try done.
  - apply elem_of_query_terms_of in H. simpl in H. lia.
  - apply elem_of_pdf_names in H as [H _]. simpl in H. lia.
Qed.

Lemma expanded_terms_size query pool :
  keyword_tokens query ≠ [] → size (expanded_terms query pool) ≠ 0%nat.
Proof.
  intros Hq Hsz. apply size_empty_inv in Hsz.
  destruct (keyword_tokens query) as [|t ts] eqn:E; [done|].
  assert (t ∈ expanded_terms query pool) as Ht.
  { unfold expanded_terms. apply elem_of_expand_terms. left. rewrite E.
    apply elem_of_cons. by left. }
  by apply Hsz in Ht.
Qed.

(** *** The shape of the matches *)

Lemma span_name_spec s :
  s = (Re.span_name s).1 +:+ (Re.span_name s).2
  ∧ all_chars Re.is_name_char (Re.span_name s).1 = true.
Proof.
  induction s as [|c s [IH1 IH2]]; simpl; [done|].
  destruct (Re.is_name_char c) eqn:E; simpl; [|done].
  destruct (Re.span_name s) as [run rest]. simpl in *.
  rewrite app_cons, <- IH1. simpl. by rewrite E, IH2.
Qed.

Lemma startswith_app_app run rest p :
  Str.startswith rest p = true → Str.startswith (run +:+ rest) (run +:+ p) = true.
Proof.
  intros H. induction run as [|a run IH]; [done|].
  rewrite !app_cons. simpl. by rewrite bool_decide_eq_true_2.
Qed.

Lemma match_here_spec s m :
  Re.match_here s = Some m →
  ∃ run, m = run +:+ ".pdf" ∧ run ≠ EmptyString ∧ all_chars Re.is_name_char run = true
         ∧ Str.startswith s m = true.
Proof.
  unfold Re.match_here. destruct (span_name_spec s) as [Hs Hrun].
  destruct (Re.span_name s) as [run rest]. simpl in *.
  destruct (0 <? Str.len run)%nat eqn:E1; simpl; [|done].
  destruct (Str.startswith rest ".pdf") eqn:E2; [|done].
  intros [= <-]. exists run. split; [done|]. split.
  { intros ->. simpl in E1. done. }
  split; [done|]. rewrite Hs at 1. by apply startswith_app_app.
Qed.

Lemma contains_cons sub c s :
  Str.contains sub s = true → Str.contains sub (String c s) = true.
Proof. intros H. simpl. rewrite H. apply orb_true_r. Qed.

(** Every match is a run of characters of [[\w\-]] followed by [".pdf"], and
    a substring of the text. *)
Lemma findall_go_spec k s m :
  m ∈ Re.findall_go k s →
  ∃ run, m = run +:+ ".pdf" ∧ run ≠ EmptyString ∧ all_chars Re.is_name_char run = true
         ∧ Str.contains m s = true.
Proof.
  revert k. induction s as [|c s IH]; intros k; simpl; [by intros ?%elem_of_nil|].
  destruct k as [|k].
  - destruct (Re.match_here (String c s)) as [m0|] eqn:E.
    + intros [->|H]%elem_of_cons.
      * destruct (match_here_spec _ _ E) as (run & ? & ? & ? & Hsw).
        exists run. repeat split; try done. by rewrite Hsw.
      * destruct (IH _ H) as (run & ? & ? & ? & Hc).
        exists run. repeat split; try done. rewrite Hc. apply orb_true_r.
    + intros H. destruct (IH _ H) as (run & ? & ? & ? & Hc).
      exists run. repeat split; try done. rewrite Hc. apply orb_true_r.
  - intros H. destruct (IH _ H) as (run & ? & ? & ? & Hc).
    exists run. repeat split; try done. rewrite Hc. apply orb_true_r.
Qed.

Lemma replace_go_skip k s old new :
  (Str.len s ≤ k)%nat → Str.replace_go k s old new = EmptyString.
Proof.
  revert k. induction s as [|c s IH]; intros k Hk; simpl in *; [done|].
  destruct k as [|k]; [lia|]. apply IH. lia.
Qed.

(** Removing [".pdf"] from a match leaves its run. *)
Lemma replace_pdf_run run :
  all_chars Re.is_name_char run = true →
  Str.replace (run +:+ ".pdf") ".pdf" EmptyString = run.
Proof.
  unfold Str.replace. induction run as [|c run IH]; intros Hrun.
  - reflexivity.
  - simpl in Hrun. apply andb_true_iff in Hrun as [Hc Hrun].
    rewrite app_cons. cbn [Str.replace_go].
    assert (Str.startswith (String c (run +:+ ".pdf")) ".pdf" = false) as ->.
    { simpl. case_bool_decide as Hdot; [|done]. subst c. done. }
    by rewrite IH.
Qed.

(** The names a result contributes: at most three, each longer than three
    characters, made of characters of [[\w\-]], and followed by [".pdf"] in
    the lower-cased content. *)
Lemma pdf_names_spec r name :
  name ∈ pdf_names r →
  (3 < Str.len name)%nat ∧ all_chars Re.is_name_char name = true
  ∧ Str.contains (name +:+ ".pdf") (Str.lower (content (chunk r))) = true.
Proof.
  intros (Hlen & pdf_ref & Href & ->)%elem_of_pdf_names.
  apply subseteq_take in Href.
  destruct (findall_go_spec _ _ _ Href) as (run & -> & _ & Hrun & Hc).
  rewrite replace_pdf_run in * by done. done.
Qed.

End ExpandFacts.

(** ** Fusion, reranking and the search *)

Section PipelineFacts.

Lemma chunk_set_metadata k v r : chunk (set_metadata k v r) = chunk r.
Proof. reflexivity. Qed.

Lemma lookup_set_metadata k k' v r :
  metadata (set_metadata k v r) !! k' = if decide (k = k') then Some v else metadata r !! k'.
Proof. unfold set_metadata. simpl. apply lookup_insert. Qed.

Lemma combine_one_chunk config ks r : chunk (combine_one config ks r) = chunk r.
Proof. reflexivity. Qed.

Lemma combine_one_semantic config ks r :
  semantic_score_of (combine_one config ks r) = semantic_score_of r.
Proof.
  unfold semantic_score_of, combine_one. by rewrite !lookup_set_metadata.
Qed.

Lemma combine_one_keyword config ks r :
  keyword_score_of (combine_one config ks r) = Some (default 0 (ks !! chunk_id (chunk r))).
Proof.
  unfold keyword_score_of, combine_one. by rewrite !lookup_set_metadata.
Qed.

Lemma combine_one_combined config ks r :
  combined_score_of (combine_one config ks r) =
  Some (semantic_weight config * default (score r) (semantic_score_of r)
        + keyword_weight config * default 0 (ks !! chunk_id (chunk r))).
Proof.
  unfold combined_score_of, combine_one. by rewrite !lookup_set_metadata.
Qed.

Lemma rerank_one_chunk qt isq r : chunk (rerank_one qt isq r) = chunk r.
Proof. reflexivity. Qed.

Lemma rerank_one_semantic qt isq r :
  semantic_score_of (rerank_one qt isq r) = semantic_score_of r.
Proof. unfold semantic_score_of, rerank_one. by rewrite lookup_set_metadata. Qed.

Lemma rerank_one_keyword qt isq r :
  keyword_score_of (rerank_one qt isq r) = keyword_score_of r.
Proof. unfold keyword_score_of, rerank_one. by rewrite lookup_set_metadata. Qed.

Lemma rerank_one_combined qt isq r :
  combined_score_of (rerank_one qt isq r) =
  Some (default 0 (combined_score_of r)
        + position_boost_of (Str.lower (content (chunk r))) qt * (1 # 10)
        + site_context_boost_of isq (chunk_metadata (chunk r))).
Proof. unfold combined_score_of, rerank_one. by rewrite lookup_set_metadata. Qed.

Lemma elem_of_combine_results config pool ks r :
  r ∈ _combine_results config pool ks ↔ ∃ r0, r = combine_one config ks r0 ∧ r0 ∈ pool.
Proof.
  unfold _combine_results. by rewrite elem_of_sort_desc, list_elem_of_fmap.
Qed.

Lemma elem_of_rerank results query r :
  r ∈ _rerank results query ↔
  ∃ r0, r = rerank_one (list_to_set (Str.split (Str.lower query)))
                       (is_site_query_of (Str.lower query)) r0 ∧ r0 ∈ results.
Proof.
  unfold _rerank. by rewrite elem_of_sort_desc, list_elem_of_fmap.
Qed.

Lemma elem_of_slice_to {A} (l : list A) k x : x ∈ slice_to l k → x ∈ l.
Proof. unfold slice_to. destruct (0 <=? k)%Z; apply subseteq_take. Qed.

Lemma length_slice_to {A} (l : list A) k :
  (0 ≤ k)%Z → (Z.of_nat (length (slice_to l k)) ≤ k)%Z.
Proof.
  intros Hk. unfold slice_to. rewrite (proj2 (Z.leb_le 0 k) Hk), length_take. lia.
Qed.

(** [search] spelled out: one request to the vector store, then the
    ranking. *)
Lemma search_unfold vs config query :
  search vs config query =
  ([VectorStoreSearch query (top_k config * 2)],
   match vs query (top_k config * 2)%Z with
   | Raise e => Raise e
   | Ok pool =>
       match _keyword_search query (normalize_results pool) with
       | Raise e => Raise e
       | Ok keyword_results => Ok (rank config query pool keyword_results)
       end
   end).
Proof.
  unfold search, vector_store_search, rank. simpl.
  destruct (vs query (top_k config * 2)%Z) as [pool|e]; simpl; [|done].
  unfold io_lift. destruct (_keyword_search query (normalize_results pool)); done.
Qed.

Lemma search_ok vs config query results :
  (search vs config query).2 = Ok results →
  ∃ pool keyword_results,
    vs query (top_k config * 2)%Z = Ok pool
    ∧ _keyword_search query (normalize_results pool) = Ok keyword_results
    ∧ results = rank config query pool keyword_results.
Proof.
  rewrite search_unfold. simpl.
  destruct (vs query (top_k config * 2)%Z) as [pool|e] eqn:E1; [|done].
  destruct (_keyword_search query (normalize_results pool)) as [ks|e] eqn:E2; [|done].
  intros [= <-]. by exists pool, ks.
Qed.

(** Every result that is returned is a result of the normalised pool, fused
    and, when reranking is on, reranked. *)
Lemma elem_of_rank config query pool ks r :
  r ∈ rank config query pool ks →
  ∃ r0, r0 ∈ normalize_results pool ∧
        (r = combine_one config ks r0
         ∨ r = rerank_one (list_to_set (Str.split (Str.lower query)))
                          (is_site_query_of (Str.lower query))
                          (combine_one config ks r0)).
Proof.
  unfold rank. intros Hr%elem_of_slice_to. destruct (rerank config).
  - apply elem_of_rerank in Hr as (r1 & -> & (r0 & -> & Hr0)%elem_of_combine_results).
    exists r0. split; [done | by right].
  - apply elem_of_combine_results in Hr as (r0 & -> & Hr0).
    exists r0. split; [done | by left].
Qed.

(** *** Blank queries *)

Lemma isspace_lower_char c : Str.isspace (Str.lower_char c) = Str.isspace c.
Proof. by destruct c as [[] [] [] [] [] [] [] []]. Qed.

Lemma blank_lower query : blank (Str.lower query) = blank query.
Proof.
  induction query as [|c q IH]; simpl; [done|]. by rewrite isspace_lower_char, IH.
Qed.

Lemma lstrip_blank query : blank query = true → Str.lstrip query = EmptyString.
Proof.
  induction query as [|c q IH]; simpl; [done|].
  intros [-> H]%andb_true_iff. by apply IH.
Qed.

Lemma blank_keyword_query query : blank query = true → keyword_query query = EmptyString.
Proof.
  intros H. unfold keyword_query, Str.strip.
  rewrite lstrip_blank; [done|]. by rewrite blank_lower.
Qed.

Lemma blank_keyword_tokens query : blank query = true → keyword_tokens query = [].
Proof.
  intros H. unfold keyword_tokens. by rewrite blank_keyword_query.
Qed.

End PipelineFacts.

(** ** The size of the boosts *)

Section BoostFacts.

Lemma find_go_range i s sub :
  Str.find_go i s sub = (-1)%Z
  ∨ (i ≤ Str.find_go i s sub ≤ i + Z.of_nat (Str.len s))%Z.
Proof.
  revert i. induction s as [|c s IH]; intros i; simpl.
  - destruct (Str.startswith EmptyString sub); [right; lia | by left].
  - destruct (Str.startswith (String c s) sub); [right; lia|].
    destruct (IH (i + 1)%Z) as [H|H]; [by left | right; unfold Str.len in *; lia].
Qed.

(** [s.find(sub)] is [-1] or an offset into [s]. *)
Lemma find_range s sub :
  Str.find s sub = (-1)%Z ∨ (0 ≤ Str.find s sub ≤ Z.of_nat (Str.len s))%Z.
Proof. apply (find_go_range 0). Qed.

Lemma position_term_bounds (pos : Z) :
  (0 ≤ pos)%Z → 0 < 1 / (1 + inject_Z pos / 100) <= 1.
Proof.
  intros Hpos.
  assert (0 <= inject_Z pos) as Hq.
  { change 0 with (inject_Z 0). by rewrite <- Zle_Qle. }
  assert (0 <= inject_Z pos / 100) as Hd.
  { apply Qle_shift_div_l; [reflexivity | lra]. }
  split.
  - apply Qlt_shift_div_l; lra.
  - apply Qle_shift_div_r; lra.
Qed.

Lemma position_boost_foldl_bounds content_lower acc l :
  acc <=
  foldl (λ position_boost term,
           let pos := Str.find content_lower term in
           if bool_decide (pos ≠ (-1)%Z)
           then position_boost + 1 / (1 + inject_Z pos / 100)
           else position_boost) acc l
  <= acc + inject_Z (Z.of_nat (length l)).
Proof.
  set (f := λ (position_boost : Q) (term : string),
              let pos := Str.find content_lower term in
              if bool_decide (pos ≠ (-1)%Z)
              then position_boost + 1 / (1 + inject_Z pos / 100)
              else position_boost).
  revert acc. induction l as [|t l IH]; intros acc.
  - cbn [foldl length]. change (inject_Z (Z.of_nat 0)) with 0. split; lra.
  - cbn [foldl length].
    assert (inject_Z (Z.of_nat (S (length l))) == 1 + inject_Z (Z.of_nat (length l))) as Hlen.
    { rewrite Nat2Z.inj_succ, <- Z.add_1_l, inject_Z_plus. reflexivity. }
    assert (acc <= f acc t <= acc + 1) as [Hf1 Hf2].
    { unfold f. cbv zeta. case_bool_decide as Hpos; [|split; lra].
      destruct (find_range content_lower t) as [Hm|Hr]; [done|].
      pose proof (position_term_bounds _ (proj1 Hr)) as [H1 H2]. split; lra. }
    destruct (IH (f acc t)) as [IH1 IH2].
    split; [lra|]. rewrite Hlen. lra.
Qed.

(** The position boost lies between 0 and the number of query terms. *)
Lemma position_boost_bounds content_lower (query_terms : gset string) :
  0 <= position_boost_of content_lower query_terms
  <= inject_Z (Z.of_nat (size query_terms)).
Proof.
  unfold position_boost_of.
  destruct (position_boost_foldl_bounds content_lower 0 (elements query_terms)) as [H1 H2].
  rewrite Qplus_0_l in H2. split; [exact H1 | exact H2].
Qed.

Lemma site_context_boost_bounds isq md :
  0 <= site_context_boost_of isq md <= 1 # 4.
Proof.
  unfold site_context_boost_of. destruct (has_site_context md), isq; split; by vm_compute.
Qed.

End BoostFacts.

(** ** What a search returns *)

Section SearchResults.

Lemma candidate_of_combine_one config ks r :
  candidate_of (combine_one config ks r) = candidate_of r.
Proof. reflexivity. Qed.

Lemma candidate_of_rerank_one qt isq r :
  candidate_of (rerank_one qt isq r) = candidate_of r.
Proof. reflexivity. Qed.

Lemma candidate_of_normalize_results pool :
  candidate_of <$> normalize_results pool = candidate_of <$> pool.
Proof.
  destruct pool as [|r0 rest]; [done|].
  rewrite normalize_results_cons, <- list_fmap_compose. done.
Qed.

Lemma fmap_candidate_of (f : SearchResult → SearchResult) (l : list SearchResult) :
  (∀ r, candidate_of (f r) = candidate_of r) →
  candidate_of <$> (f <$> l) = candidate_of <$> l.
Proof.
  intros H. rewrite <- list_fmap_compose. apply list_fmap_ext. intros i r _. apply H.
Qed.

Lemma combine_results_perm config pool ks :
  _combine_results config pool ks ≡ₚ combine_one config ks <$> pool.
Proof. apply sort_desc_perm. Qed.

Lemma rerank_perm results query :
  _rerank results query
  ≡ₚ rerank_one (list_to_set (Str.split (Str.lower query)))
                (is_site_query_of (Str.lower query)) <$> results.
Proof. apply sort_desc_perm. Qed.

(** The ranking before truncation. *)
Lemma rank_unfold config query pool ks :
  rank config query pool ks =
  slice_to (if rerank config
            then _rerank (_combine_results config (normalize_results pool) ks) query
            else _combine_results config (normalize_results pool) ks)
           (top_k config).
Proof. reflexivity. Qed.

Lemma ranking_candidates config query pool ks :
  candidate_of <$> (if rerank config
                    then _rerank (_combine_results config (normalize_results pool) ks) query
                    else _combine_results config (normalize_results pool) ks)
  ≡ₚ candidate_of <$> pool.
Proof.
  assert (candidate_of <$> _combine_results config (normalize_results pool) ks
          ≡ₚ candidate_of <$> pool) as Hc.
  { rewrite combine_results_perm, fmap_candidate_of by done.
    by rewrite candidate_of_normalize_results. }
  destruct (rerank config); [|done].
  by rewrite rerank_perm, fmap_candidate_of.
Qed.

Lemma ranking_sorted config query pool ks :
  StronglySorted (λ a b, combined_key b <= combined_key a)
    (if rerank config
     then _rerank (_combine_results config (normalize_results pool) ks) query
     else _combine_results config (normalize_results pool) ks).
Proof. destruct (rerank config); apply sort_desc_sorted. Qed.

Lemma slice_to_sublist {A} (l : list A) k : slice_to l k `sublist_of` l.
Proof. unfold slice_to. destruct (0 <=? k)%Z; apply sublist_take. Qed.

Lemma slice_to_sorted {A} (R : relation A) (l : list A) k :
  StronglySorted R l → StronglySorted R (slice_to l k).
Proof.
  unfold slice_to. intros Hl.
  destruct (0 <=? k)%Z;
    [rewrite <- (take_drop (Z.to_nat k) l) in Hl
    |rewrite <- (take_drop (Z.to_nat (Z.of_nat (length l) + k)) l) in Hl];
    by apply StronglySorted_app_1_l in Hl.
Qed.

Lemma length_slice_to_eq {A} (l : list A) k :
  Z.of_nat (length (slice_to l k)) =
  if (0 <=? k)%Z then Z.min k (Z.of_nat (length l))
  else Z.max 0 (Z.of_nat (length l) + k).
Proof.
  unfold slice_to. destruct (0 <=? k)%Z eqn:E; rewrite length_take.
  - apply Z.leb_le in E. lia.
  - apply Z.leb_gt in E. lia.
Qed.

End SearchResults.

(** ** When the search fails *)

Section Failures.

Lemma append_field_raise text field e :
  append_field text field = Raise e ↔ e = AttributeError ∧ unusable_text field = true.
Proof.
  unfold append_field, unusable_text.
  destruct field as [[| | | | |]|]; simpl; try destruct (truthy _) eqn:E;
    try destruct b; try destruct (negb _); naive_solver.
Qed.

Lemma append_field_ok text field :
  unusable_text field = false → ∃ text', append_field text field = Ok text'.
Proof.
  intros H. destruct (append_field text field) as [t|e] eqn:E; [by eexists|].
  apply append_field_raise in E as [_ E]. congruence.
Qed.

Lemma metadata_text_of_raise md e :
  metadata_text_of md = Raise e ↔
  e = AttributeError
  ∧ (unusable_text (md !! "file_name") || unusable_text (md !! "url")) = true.
Proof.
  unfold metadata_text_of.
  destruct (append_field EmptyString (md !! "file_name")) as [t|e1] eqn:E1; simpl.
  - assert (unusable_text (md !! "file_name") = false) as ->.
    { destruct (unusable_text (md !! "file_name")) eqn:Hu; [|done].
      assert (append_field EmptyString (md !! "file_name") = Raise AttributeError) as Hr
        by (by apply append_field_raise).
      congruence. }
    simpl. apply append_field_raise.
  - apply append_field_raise in E1 as [-> ->]. simpl. naive_solver.
Qed.

Lemma keyword_score_raise terms c e :
  keyword_score terms c = Raise e ↔ e = AttributeError ∧ malformed_chunk c = true.
Proof.
  unfold keyword_score, malformed_chunk. rewrite <- metadata_text_of_raise.
  destruct (metadata_text_of (chunk_metadata c)); simpl; naive_solver.
Qed.

Lemma score_results_raise terms pool acc e :
  score_results terms pool acc = Raise e ↔
  e = AttributeError ∧ ∃ r, r ∈ pool ∧ malformed_chunk (chunk r) = true.
Proof.
  revert acc. induction pool as [|r0 rest IH]; intros acc; simpl.
  - split; [done|]. intros (_ & r & Hr & _). by apply elem_of_nil in Hr.
  - destruct (keyword_score terms (chunk r0)) as [s|e0] eqn:E; simpl.
    + rewrite IH. split.
      * intros (-> & r & Hr & Hm). split; [done|]. exists r.
        split; [apply elem_of_cons; by right | done].
      * intros (-> & r & [->|Hr]%elem_of_cons & Hm); [|by eauto].
        assert (keyword_score terms (chunk r0) = Raise AttributeError) as Hk
          by (by apply keyword_score_raise).
        congruence.
    + apply keyword_score_raise in E as [-> Hm]. split.
      * intros [= <-]. split; [done|]. exists r0. split; [apply elem_of_cons; by left | done].
      * by intros [-> _].
Qed.

Lemma keyword_search_raise query pool e :
  _keyword_search query pool = Raise e ↔
  keyword_tokens query ≠ [] ∧ e = AttributeError
  ∧ ∃ r, r ∈ pool ∧ malformed_chunk (chunk r) = true.
Proof.
  destruct (decide (keyword_tokens query = [])) as [H0|Hq].
  - rewrite keyword_search_no_tokens by done. naive_solver.
  - rewrite keyword_search_tokens, score_results_raise by done. naive_solver.
Qed.

Lemma malformed_normalize_results pool :
  (∃ r, r ∈ normalize_results pool ∧ malformed_chunk (chunk r) = true)
  ↔ ∃ r, r ∈ pool ∧ malformed_chunk (chunk r) = true.
Proof.
  assert (∀ l : list SearchResult,
            (∃ r, r ∈ l ∧ malformed_chunk (chunk r) = true)
            ↔ ∃ c, c ∈ chunk <$> l ∧ malformed_chunk c = true) as H.
  { intros l. split.
    - intros (r & Hr & Hm). exists (chunk r). split; [by apply list_elem_of_fmap_2 | done].
    - intros (c & (r & -> & Hr)%list_elem_of_fmap & Hm). by exists r. }
  by rewrite !H, normalize_results_chunks.
Qed.

End Failures.

(** ** More on the normalisation *)

Section NormalizeMore.

Lemma foldl_Qmax_in a xs : foldl Qmax a xs ∈ a :: xs.
Proof.
  revert a. induction xs as [|x xs IH]; intros a; simpl.
  - apply elem_of_cons. by left.
  - specialize (IH (Qmax a x)). apply elem_of_cons in IH as [IH|IH].
    + rewrite IH. unfold Qmax, GenericMinMax.gmax.
      destruct (a ?= x); rewrite ?elem_of_cons; auto.
    + rewrite !elem_of_cons. auto.
Qed.

Lemma foldl_Qmin_in a xs : foldl Qmin a xs ∈ a :: xs.
Proof.
  revert a. induction xs as [|x xs IH]; intros a; simpl.
  - apply elem_of_cons. by left.
  - specialize (IH (Qmin a x)). apply elem_of_cons in IH as [IH|IH].
    + rewrite IH. unfold Qmin, GenericMinMax.gmin.
      destruct (a ?= x); rewrite ?elem_of_cons; auto.
    + rewrite !elem_of_cons. auto.
Qed.

End NormalizeMore.

(** ** The sort keeps earlier elements of no smaller key ahead *)

Section OrderFacts.
Context {A : Type} (key : A → Q).

(** Insertion splits the list at the place of the new element, after the
    elements of greater key. *)
Lemma insert_desc_split x l :
  ∃ p q, l = p ++ q ∧ insert_desc key x l = p ++ x :: q
         ∧ Forall (λ z, key x < key z) p.
Proof.
  induction l as [|y l (p & q & Hl & Hi & Hp)]; simpl.
  - exists [], []. by repeat split.
  - destruct (Qlt_bool (key x) (key y)) eqn:E.
    + exists (y :: p), q. rewrite Hl at 1. rewrite Hi. repeat split; [done..|].
      constructor; [by apply Qlt_bool_true | done].
    + exists [], (y :: l). by repeat split.
Qed.

Lemma lookup_insert_middle (p q : list A) x i z :
  (p ++ q) !! i = Some z →
  (p ++ x :: q) !! (if decide (i < length p)%nat then i else S i) = Some z.
Proof.
  intros H. case_decide as Hi.
  - rewrite lookup_app_l in H by done. by rewrite lookup_app_l.
  - rewrite lookup_app_r in H by lia. rewrite lookup_app_r by lia.
    replace (S i - length p)%nat with (S (i - length p)) by lia. done.
Qed.

Lemma insert_desc_precedes a x y l :
  precedes x y l → precedes x y (insert_desc key a l).
Proof.
  intros (i & j & Hij & Hi & Hj).
  destruct (insert_desc_split a l) as (p & q & Hl & -> & _). subst l.
  exists (if decide (i < length p)%nat then i else S i),
         (if decide (j < length p)%nat then j else S j).
  split; [repeat case_decide; lia|].
  split; by apply lookup_insert_middle.
Qed.

Lemma insert_desc_head_precedes x y l :
  y ∈ l → key y <= key x → precedes x y (insert_desc key x l).
Proof.
  intros Hy Hle.
  destruct (insert_desc_split x l) as (p & q & Hl & -> & Hp). subst l.
  apply elem_of_app in Hy as [Hy|Hy].
  - exfalso. apply (proj1 (Forall_forall _ _) Hp) in Hy. lra.
  - apply list_elem_of_lookup in Hy as [m Hm].
    exists (length p), (length p + S m)%nat. split; [lia|]. split.
    + by rewrite lookup_app_r, Nat.sub_diag by lia.
    + rewrite lookup_app_r by lia.
      replace (length p + S m - length p)%nat with (S m) by lia. done.
Qed.

(** An element that stands before another of no greater key still stands
    before it after the sort. *)
Lemma sort_desc_precedes x y l :
  precedes x y l → key y <= key x → precedes x y (sort_desc key l).
Proof.
  intros (i & j & Hij & Hi & Hj) Hle. revert i j Hij Hi Hj.
  induction l as [|a l IH]; intros i j Hij Hi Hj; [done|].
  simpl. destruct i as [|i].
  - simpl in Hi. injection Hi as ->. destruct j as [|j]; [lia|]. simpl in Hj.
    apply insert_desc_head_precedes; [|done].
    apply elem_of_sort_desc. by eapply list_elem_of_lookup_2.
  - destruct j as [|j]; [lia|]. simpl in Hi, Hj.
    apply insert_desc_precedes. apply (IH i j); [lia | done..].
Qed.

End OrderFacts.

Lemma size_list_to_set_le (l : list string) :
  (size (list_to_set l : gset string) ≤ length l)%nat.
Proof.
  induction l as [|x l IH]; [by rewrite list_to_set_nil, size_empty|].
  rewrite list_to_set_cons, size_union_alt, size_singleton. simpl.
  pose proof (subseteq_size (list_to_set l ∖ {[x]}) (list_to_set l : gset string)) as H.
  assert ((list_to_set l ∖ {[x]} : gset string) ⊆ list_to_set l) as Hs by set_solver.
  specialize (H Hs). lia.
Qed.

Lemma subseteq_list_size (X : gset string) (l : list string) :
  (∀ t, t ∈ X → t ∈ l) → (size X ≤ length l)%nat.
Proof.
  intros H. etrans; [|apply size_list_to_set_le].
  apply subseteq_size. intros t Ht. apply elem_of_list_to_set. by apply H.
Qed.

Lemma score_results_dom_eq terms pool acc m :
  score_results terms pool acc = Ok m →
  dom m = dom acc ∪ list_to_set ((λ r, chunk_id (chunk r)) <$> pool).
Proof.
  revert acc. induction pool as [|r0 rest IH]; intros acc; simpl.
  - intros [= <-]. set_solver.
  - destruct (keyword_score terms (chunk r0)) as [s|e]; simpl; [|done].
    intros Hm. rewrite (IH _ Hm), dom_insert_L. set_solver.
Qed.

(** ** The fixed-size chunker *)

Section FixedChunkerFacts.

Lemma len_list_ascii s : Str.len s = length (list_ascii_of_string s).
Proof. unfold Str.len. induction s; simpl; by f_equal. Qed.

(** A slice with [0 <= start <= stop] as a list of characters. *)
Lemma slice_str_list s (a b : Z) :
  (0 ≤ a ≤ b)%Z →
  list_ascii_of_string (slice_str s a b)
  = take (Z.to_nat (b - a)) (drop (Z.to_nat a) (list_ascii_of_string s)).
Proof.
  intros Hab. unfold slice_str, clamp_index.
  rewrite list_ascii_of_string_of_list_ascii, len_list_ascii.
  set (l := list_ascii_of_string s).
  destruct (a <? 0)%Z eqn:Ea; [apply Z.ltb_lt in Ea; lia|].
  destruct (b <? 0)%Z eqn:Eb; [apply Z.ltb_lt in Eb; lia|].
  destruct (decide (Z.of_nat (length l) ≤ a)%Z) as [Hla|Hla].
  - rewrite !drop_ge by lia. by rewrite !take_nil.
  - rewrite (Z.min_l a) by lia.
    destruct (decide (b ≤ Z.of_nat (length l))%Z) as [Hlb|Hlb].
    + by rewrite (Z.min_l b) by lia.
    + rewrite (Z.min_r b) by lia.
      rewrite !take_ge; [done|rewrite length_drop; lia..].
Qed.

Lemma nth_id_0 id : nth_id id 0 = id.
Proof. unfold nth_id. by rewrite Nat.add_0_r, Pos2Nat.id. Qed.

Lemma nth_id_succ id k : Pos.succ (nth_id id k) = nth_id id (S k).
Proof.
  unfold nth_id. rewrite <- Nat2Pos.inj_succ by lia. f_equal. lia.
Qed.

Lemma nth_id_inj id k1 k2 : nth_id id k1 = nth_id id k2 → k1 = k2.
Proof.
  unfold nth_id. intros H. apply Nat2Pos.inj in H; lia.
Qed.

(** The chunk at [k] starts before the end of the text exactly when [k] is
    below the count. *)
Lemma fixed_count_spec self (n k : nat) :
  (0 < fixed_step self)%Z →
  (Z.of_nat k * fixed_step self < Z.of_nat n)%Z ↔ (k < fixed_count self n)%nat.
Proof.
  intros Hstep. unfold fixed_count. set (st := fixed_step self) in *.
  assert (0 ≤ (Z.of_nat n + st - 1) / st)%Z as Hq by (apply Z.div_pos; lia).
  split.
  - intros H.
    assert (Z.of_nat k + 1 ≤ (Z.of_nat n + st - 1) / st)%Z; [|lia].
    apply Z.div_le_lower_bound; lia.
  - intros H.
    assert (Z.of_nat k < (Z.of_nat n + st - 1) / st)%Z as Hk by lia.
    destruct (decide (Z.of_nat k * st < Z.of_nat n)%Z) as [|Hge]; [done|].
    exfalso. assert ((Z.of_nat n + st - 1) / st < Z.of_nat k + 1)%Z; [|lia].
    apply Z.div_lt_upper_bound; lia.
Qed.

Lemma fixed_count_le self (n : nat) :
  (0 < fixed_step self)%Z → (fixed_count self n ≤ n)%nat.
Proof.
  intros Hstep. destruct (decide (fixed_count self n ≤ n)%nat) as [|Hgt]; [done|].
  exfalso. assert (n < fixed_count self n)%nat as H by lia.
  apply fixed_count_spec in H; [|done]. nia.
Qed.

(** The loop in closed form: from the [k]-th start on it makes the chunks
    [k], [k+1], ... below the count, when the fuel suffices. *)
Lemma fixed_chunk_loop_spec self document id0 :
  (0 < fixed_step self)%Z →
  let n := Str.len (doc_content document) in
  ∀ m fuel k,
    (fixed_count self n - k = m)%nat →
    fixed_chunk_loop fuel self document
      (Z.of_nat k * fixed_step self) (Z.of_nat k) (nth_id id0 k)
    = if decide (m ≤ fuel)%nat
      then Some (fixed_chunk_at self document id0 <$> seq k m)
      else None.
Proof.
  intros Hstep n m. induction m as [|m IH]; intros fuel k Hm.
  - assert (¬ (k < fixed_count self n)%nat) as Hk by lia.
    rewrite <- fixed_count_spec in Hk by done.
    rewrite decide_True by lia.
    destruct fuel; cbn [fixed_chunk_loop]; fold n;
      (destruct (Z.of_nat k * fixed_step self <? Z.of_nat n)%Z eqn:E;
       [apply Z.ltb_lt in E; lia | done]).
  - assert (k < fixed_count self n)%nat as Hk by lia.
    rewrite <- fixed_count_spec in Hk by done.
    destruct fuel as [|fuel]; cbn [fixed_chunk_loop]; fold n;
      (destruct (Z.of_nat k * fixed_step self <? Z.of_nat n)%Z eqn:E;
       [|apply Z.ltb_ge in E; lia]).
    + by rewrite decide_False by lia.
    + replace (Z.of_nat k * fixed_step self + chunk_size self - chunk_overlap self)%Z
        with (Z.of_nat (S k) * fixed_step self)%Z by (unfold fixed_step; lia).
      replace (Z.of_nat k + 1)%Z with (Z.of_nat (S k)) by lia.
      rewrite nth_id_succ, (IH fuel (S k)) by lia.
      destruct (decide (m ≤ fuel)%nat).
      * rewrite decide_True by lia. done.
      * rewrite decide_False by lia. done.
Qed.

Lemma fixed_chunk_spec self document id0 fuel :
  (0 < fixed_step self)%Z →
  fixed_chunk fuel self document id0
  = if decide (fixed_count self (Str.len (doc_content document)) ≤ fuel)%nat
    then Some (fixed_chunk_at self document id0
               <$> seq 0 (fixed_count self (Str.len (doc_content document))))
    else None.
Proof.
  intros Hstep. unfold fixed_chunk.
  pose proof (fixed_chunk_loop_spec self document id0 Hstep
                (fixed_count self (Str.len (doc_content document))) fuel 0%nat) as H.
  rewrite nth_id_0 in H. simpl in H. apply H. lia.
Qed.

Lemma fixed_chunk_closed self document id0 fuel :
  (chunk_overlap self < chunk_size self)%Z →
  (Str.len (doc_content document) ≤ fuel)%nat →
  fixed_chunk fuel self document id0
  = Some (fixed_chunk_at self document id0
          <$> seq 0 (fixed_count self (Str.len (doc_content document)))).
Proof.
  intros Hstep Hfuel.
  assert (0 < fixed_step self)%Z as Hs by (unfold fixed_step; lia).
  rewrite fixed_chunk_spec by done. rewrite decide_True; [done|].
  etrans; [by apply fixed_count_le | done].
Qed.

(** Without progress the loop never ends on a text that is not empty. *)
Lemma fixed_chunk_loop_diverges self document fuel start idx id :
  (fixed_step self ≤ 0)%Z → (start ≤ 0)%Z →
  doc_content document ≠ EmptyString →
  fixed_chunk_loop fuel self document start idx id = None.
Proof.
  intros Hstep Hstart Hne. revert start idx id Hstart.
  assert (0 < Z.of_nat (Str.len (doc_content document)))%Z as Hlen.
  { destruct (doc_content document); [done|]. unfold Str.len. simpl. lia. }
  induction fuel as [|fuel IH]; intros start idx id Hstart; simpl;
    (destruct (start <? Z.of_nat (Str.len (doc_content document)))%Z eqn:E;
     [|apply Z.ltb_ge in E; lia]); [done|].
  rewrite IH; [done|]. unfold fixed_step in Hstep. lia.
Qed.

(** Consecutive windows of width [w] at distance [st <= w] cover the list:
    their first [st] elements, in order, are its first [m * st] elements. *)
Lemma windows_cover {A} (l : list A) (st w : nat) m :
  (st ≤ w)%nat →
  mjoin ((λ k, take st (take w (drop (k * st) l))) <$> seq 0 m) = take (m * st) l.
Proof.
  intros Hw. induction m as [|m IH]; [done|].
  rewrite seq_S, fmap_app, join_app, IH. simpl. rewrite app_nil_r.
  rewrite take_take, Nat.min_l by done.
  replace (st + m * st)%nat with (m * st + st)%nat by lia.
  by rewrite take_take_drop.
Qed.

End FixedChunkerFacts.

Section FixedChunkerShape.

(** The content of chunk [k] as a window of the text. *)
Lemma fixed_chunk_at_content self document id0 k :
  (0 ≤ chunk_overlap self < chunk_size self)%Z →
  list_ascii_of_string (content (fixed_chunk_at self document id0 k))
  = take (Z.to_nat (chunk_size self))
         (drop (k * Z.to_nat (fixed_step self))
               (list_ascii_of_string (doc_content document))).
Proof.
  intros H. unfold fixed_chunk_at. simpl. unfold fixed_step in *.
  rewrite slice_str_list by nia. f_equal; [f_equal; lia|]. f_equal. nia.
Qed.

(** What a returned list of chunks is. *)
Lemma fixed_chunk_some self document id0 fuel chunks :
  (chunk_overlap self < chunk_size self)%Z →
  fixed_chunk fuel self document id0 = Some chunks →
  chunks = fixed_chunk_at self document id0
           <$> seq 0 (fixed_count self (Str.len (doc_content document))).
Proof.
  intros Hstep. rewrite fixed_chunk_spec by (unfold fixed_step; lia).
  case_decide; [|done]. by intros [= <-].
Qed.

End FixedChunkerShape.

(** ** The chunker factory *)

Section FactoryFacts.

Lemma len_rev_app s1 s2 :
  Str.len (String.rev_app s1 s2) = (Str.len s1 + Str.len s2)%nat.
Proof.
  unfold Str.len. revert s2. induction s1 as [|c s1 IH]; intros s2; simpl; [done|].
  rewrite IH. simpl. lia.
Qed.

Lemma len_rev s : Str.len (String.rev s) = Str.len s.
Proof. unfold String.rev. rewrite len_rev_app. unfold Str.len. simpl. lia. Qed.

Lemma len_lstrip s : (Str.len (Str.lstrip s) ≤ Str.len s)%nat.
Proof.
  unfold Str.len. induction s as [|c s IH]; simpl; [done|].
  destruct (Str.isspace c); simpl; lia.
Qed.

(** Stripping does not make a string longer. *)
Lemma len_strip s : (Str.len (Str.strip s) ≤ Str.len s)%nat.
Proof.
  unfold Str.strip, Str.rstrip. rewrite len_rev.
  etrans; [apply len_lstrip|]. rewrite len_rev. apply len_lstrip.
Qed.

Lemma chunks_of_chunker_elem document chunker out c :
  chunks_of_chunker document chunker = Some out →
  c ∈ out →
  ∃ chunks c0, chunk_method chunker document = Some (Ok chunks)
    ∧ c0 ∈ chunks ∧ keeps_chunk c0 = true ∧ c = stamp_strategy (get_name chunker) c0.
Proof.
  unfold chunks_of_chunker.
  destruct (chunk_method chunker document) as [[chunks|e]|]; [| |done].
  - intros [= <-] (c0 & -> & [Hk Hc0]%list_elem_of_filter)%list_elem_of_fmap.
    exists chunks, c0. repeat split; [done|]. by apply Is_true_true in Hk.
  - intros [= <-] ?%elem_of_nil. done.
Qed.

Lemma chunks_of_chunkers_elem document chunkers out c :
  chunks_of_chunkers document chunkers = Some out →
  c ∈ out →
  ∃ chunker chunks c0,
    chunker ∈ chunkers
    ∧ chunk_method chunker document = Some (Ok chunks)
    ∧ c0 ∈ chunks ∧ keeps_chunk c0 = true ∧ c = stamp_strategy (get_name chunker) c0.
Proof.
  revert out. induction chunkers as [|chunker rest IH]; intros out; simpl.
  - intros [= <-] ?%elem_of_nil. done.
  - destruct (chunks_of_chunker document chunker) as [chunks1|] eqn:E1; [|done].
    destruct (chunks_of_chunkers document rest) as [more|] eqn:E2; [|done].
    simpl. intros [= <-] [Hc|Hc]%elem_of_app.
    + destruct (chunks_of_chunker_elem _ _ _ _ E1 Hc) as (chunks & c0 & ? & ? & ? & ?).
      exists chunker, chunks, c0. split; [apply elem_of_cons; by left | done].
    + destruct (IH more eq_refl Hc) as (ch & chunks & c0 & ? & ? & ? & ? & ?).
      exists ch, chunks, c0. split; [apply elem_of_cons; by right | done].
Qed.

Lemma chunks_of_chunkers_app document cs1 cs2 :
  chunks_of_chunkers document (cs1 ++ cs2)
  = out1 ← chunks_of_chunkers document cs1;
    out2 ← chunks_of_chunkers document cs2;
    Some (out1 ++ out2).
Proof.
  induction cs1 as [|c cs1 IH]; simpl.
  - destruct (chunks_of_chunkers document cs2); done.
  - destruct (chunks_of_chunker document c) as [o|]; [|done]. simpl.
    rewrite IH. destruct (chunks_of_chunkers document cs1) as [o1|]; [|done]. simpl.
    destruct (chunks_of_chunkers document cs2) as [o2|]; [|done]. simpl.
    by rewrite app_assoc.
Qed.

End FactoryFacts.

(** ** The embedder and the in-memory store *)

Section StoreFacts.

Lemma filter_all {A} (P : A → Prop) `{!∀ x, Decision (P x)} (l : list A) :
  Forall P l → filter P l = l.
Proof.
  induction 1 as [|x l Hx Hl IH]; [done|]. by rewrite filter_cons_True, IH.
Qed.

Lemma filter_full_length {A} (P : A → Prop) `{!∀ x, Decision (P x)} (l : list A) :
  length (filter P l) = length l → Forall P l.
Proof.
  induction l as [|x l IH]; [constructor|]. rewrite filter_cons.
  pose proof (length_filter P l) as Hle.
  destruct (decide (P x)); simpl; intros Hlen; [|lia].
  constructor; [done|]. apply IH. lia.
Qed.

Lemma embed_texts_filter service texts :
  embed_texts service texts
  = embed_texts service (filter (λ t, is_blank_text t = false) texts).
Proof.
  unfold embed_texts. rewrite list_filter_filter_l by done.
  case_bool_decide as Ht; [by subst texts|].
  by case_bool_decide as Hv.
Qed.

Lemma embed_texts_count service texts embeddings :
  one_vector_per_text service →
  embed_texts service texts = Returns embeddings →
  length embeddings = length (filter (λ t, is_blank_text t = false) texts).
Proof.
  intros Hone. unfold embed_texts. case_bool_decide as Ht.
  - intros [= <-]. by subst texts.
  - case_bool_decide as Hv; [intros [= <-]; by rewrite Hv|]. apply Hone.
Qed.

Lemma collect_results_spec self similarities top_indices results :
  collect_results self similarities top_indices = Returns results →
  Forall (λ r, 0 < score r
               ∧ metadata r = {["similarity" := score r]}
               ∧ chunk r ∈ chunks self) results
  ∧ (length results ≤ length top_indices)%nat.
Proof.
  revert results. induction top_indices as [|idx rest IH]; intros results; simpl.
  - intros [= <-]. split; [constructor | done].
  - destruct (similarities !! idx) as [s|]; [|done].
    destruct (Qlt_bool 0 s) eqn:Es.
    + destruct (chunks self !! idx) as [c|] eqn:Ec; [|done].
      destruct (collect_results self similarities rest) as [rs|e]; [|done].
      intros [= <-]. destruct (IH rs eq_refl) as [Hall Hlen]. split; [|simpl; lia].
      constructor; [|done]. simpl. split; [by apply Qlt_bool_true|].
      split; [done|]. by eapply list_elem_of_lookup_2.
    + intros Hc. destruct (IH results Hc) as [Hall Hlen]. split; [done | lia].
Qed.

End StoreFacts.

(** * The claims *)

(** ** Score normalisation *)

(** C1, as stated, fails: a single-element pool is normalised to [0.0], not
    to [1.0]: [normalize([5]) = [0.0]]. *)
Lemma C1_counterexample : normalize [5] = [0] ∧ ¬ Forall2 Qeq (normalize [5]) [1].
Proof.
  split; [reflexivity|].
  intros H. apply Forall2_cons_1 in H as [H _]. vm_compute in H. discriminate H.
Qed.

(** C1, amended: normalisation maps each raw similarity [s] of the pool to
    [(s - min) / (max - min)] when [max != min]; when [max == min] (a
    single-element or an all-equal pool) every normalised score is [0.0];
    the empty pool gives the empty output; the divisor is never zero. *)
Theorem C1_normalize_min_max (x : Q) (xs : list Q) :
  let max_score := py_max x xs in
  let min_score := py_min x xs in
  normalize [] = [] ∧
  ¬ score_range max_score min_score == 0 ∧
  (¬ max_score == min_score →
   Forall2 (λ n s, n == (s - min_score) / (max_score - min_score))
           (normalize (x :: xs)) (x :: xs)) ∧
  (max_score == min_score →
   Forall2 (λ n s, n == 0) (normalize (x :: xs)) (x :: xs)).
Proof.
  intros max_score min_score.
  split; [reflexivity|]. split; [apply score_range_nonzero|].
  rewrite normalize_cons. fold max_score min_score.
  split; intros Hm; apply Forall2_fmap_l, Forall_Forall2_diag, Forall_forall;
    intros s Hs; simpl; unfold score_range.
  - destruct (Qeq_bool max_score min_score) eqn:E; simpl; [|reflexivity].
    apply Qeq_bool_iff in E. contradiction.
  - destruct (Qeq_bool max_score min_score) eqn:E; simpl.
    + pose proof (py_min_le x xs s Hs). pose proof (py_max_ge x xs s Hs).
      fold max_score in H0. fold min_score in H.
      assert (s == min_score) as -> by lra.
      unfold Qdiv. lra.
    + apply Qeq_bool_neq in E. contradiction.
Qed.

Lemma C1_normalize_min_max_witness :
  Forall2 (λ n s, n == (s - 1) / (5 - 1)) (normalize [1; 3; 5]) [1; 3; 5] ∧
  Forall2 (λ n s, n == 0) (normalize [1; 1; 1]) [1; 1; 1].
Proof.
  split.
  - apply (C1_normalize_min_max 1 [3; 5]). vm_compute. discriminate.
  - apply (C1_normalize_min_max 1 [1; 1]). reflexivity.
Defined.

(** ** Blank queries *)

(** C2, as stated, fails: a whitespace-only query is not rejected; the vector
    store is asked as for any query and the search returns results. *)
Lemma C2_counterexample :
  blank "   " = true ∧
  ∃ results,
    search (store_of three_hits) default_config "   "
    = ([VectorStoreSearch "   " 10], Ok results)
    ∧ length results = 3%nat.
Proof.
  split; [reflexivity|]. eexists. split; [vm_compute; reflexivity | reflexivity].
Qed.

(** C2, amended: a blank query is not rejected and no [InvalidQuery] error
    exists; the search sends the one request [(query, top_k * 2)] to the
    vector store as for any query, fails exactly when that request fails,
    and otherwise returns the ranked pool, in which every keyword score is
    0: keyword scoring returns the empty table whatever the pool. *)
Theorem C2_blank_query_is_searched (vs : VectorStore) (config : HybridSearchConfig)
    (query : string) :
  blank query = true →
  (search vs config query).1 = [VectorStoreSearch query (top_k config * 2)]
  ∧ (∀ pool, _keyword_search query pool = Ok ∅)
  ∧ (∀ e, vs query (top_k config * 2)%Z = Raise e → (search vs config query).2 = Raise e)
  ∧ (∀ pool, vs query (top_k config * 2)%Z = Ok pool →
       (search vs config query).2 = Ok (rank config query pool ∅)
       ∧ ∀ r, r ∈ rank config query pool ∅ → keyword_score_of r = Some 0).
Proof.
  intros Hb. pose proof (blank_keyword_tokens _ Hb) as Ht.
  rewrite search_unfold. simpl. split; [done|].
  split; [intros pool; by apply keyword_search_no_tokens|].
  split; [by intros e ->|].
  intros pool ->. rewrite keyword_search_no_tokens by done. split; [done|].
  intros r (r0 & _ & [->| ->])%elem_of_rank.
  - by rewrite combine_one_keyword, lookup_empty.
  - by rewrite rerank_one_keyword, combine_one_keyword, lookup_empty.
Qed.

Lemma C2_blank_query_is_searched_witness :
  (search (store_of three_hits) default_config "   ").1 = [VectorStoreSearch "   " 10]
  ∧ ∀ pool, _keyword_search "   " pool = Ok ∅.
Proof.
  destruct (C2_blank_query_is_searched (store_of three_hits) default_config "   ")
    as (H1 & H2 & _); [reflexivity|]. split; [exact H1 | exact H2].
Defined.

(** ** The range of the scores *)

(** C3, as stated, fails for the lexical score: a chunk that repeats the one
    query term five times and carries it in its file name scores
    [0.5 + 0.3 + 0.3 = 1.1]. *)
Lemma C3_counterexample :
  ∃ r k,
    (search (store_of [ab_hit]) default_config "ab").2 = Ok [r]
    ∧ keyword_score_of r = Some k ∧ k == 11 # 10 ∧ ¬ k <= 1.
Proof.
  eexists _, _. split; [vm_compute; reflexivity|].
  split; [vm_compute; reflexivity|]. split; [reflexivity|].
  intros H. vm_compute in H. by apply H.
Qed.

(** C3, amended: every result a search returns carries a semantic score in
    [0, 1] and a lexical score in [0, 1.1]; the bound 1.1 is reached. *)
Theorem C3_scores_bounded (vs : VectorStore) (config : HybridSearchConfig)
    (query : string) (results : list SearchResult) (r : SearchResult) :
  (search vs config query).2 = Ok results →
  r ∈ results →
  (∃ s, semantic_score_of r = Some s ∧ 0 <= s <= 1)
  ∧ (∃ k, keyword_score_of r = Some k ∧ 0 <= k <= 11 # 10).
Proof.
  intros (pool & ks & _ & Hks & ->)%search_ok (r0 & Hr0 & Hr)%elem_of_rank.
  assert (0 <= default 0 (ks !! chunk_id (chunk r0)) <= 11 # 10) as Hk.
  { destruct (ks !! chunk_id (chunk r0)) as [k|] eqn:E; simpl; [|lra].
    by eapply keyword_search_values. }
  destruct Hr as [-> | ->].
  - rewrite combine_one_semantic, combine_one_keyword.
    split; [by apply (normalize_results_unit pool) | eauto].
  - rewrite rerank_one_semantic, rerank_one_keyword, combine_one_semantic, combine_one_keyword.
    split; [by apply (normalize_results_unit pool) | eauto].
Qed.

Lemma C3_scores_bounded_witness :
  ∃ r, (∃ s, semantic_score_of r = Some s ∧ 0 <= s <= 1)
       ∧ (∃ k, keyword_score_of r = Some k ∧ 0 <= k <= 11 # 10).
Proof.
  eexists.
  eapply (C3_scores_bounded (store_of [ab_hit]) default_config "ab").
  - vm_compute. reflexivity.
  - apply list_elem_of_here.
Defined.

(** ** The lexical score *)

(** C4, as stated, fails: terms found in the metadata count as matches and
    as occurrences too.  A chunk without text whose file name is the query
    term has no content match, and its lexical score is
    [0.5 + 0.3 * 0.2 + 0.3 = 0.86], not [0.0]. *)
Lemma C4_counterexample :
  content_matches (Str.lower (content (chunk empty_ab_hit)))
                  (expanded_terms "ab" [empty_ab_hit]) = 0%nat
  ∧ ∃ scores s,
      _keyword_search "ab" [empty_ab_hit] = Ok scores
      ∧ scores !! chunk_id (chunk empty_ab_hit) = Some s
      ∧ s == 86 # 100 ∧ ¬ s == 0.
Proof.
  split; [reflexivity|]. eexists _, _.
  split; [vm_compute; reflexivity|]. split; [vm_compute; reflexivity|].
  split; [reflexivity | discriminate].
Qed.

(** C4, amended: with the expanded terms [terms], [n = |terms| > 0], and the
    metadata text [" " + file_name.lower() + " " + url.lower()] (each part
    only when the field is set), the lexical score of a candidate is
    [0.5 * (matched / n) + 0.3 * min(occurrences / (n * 5), 1.0)
     + min(metadataHits / n, 0.3)]
    when [matched > 0] and [0.0] otherwise, where [matched] is the number of
    terms that occur in the lower-cased content or in the metadata text,
    [occurrences] is the sum over the terms of their occurrence counts in
    both, and [metadataHits] is the number of terms that occur in the
    metadata text; the score is [0.0] exactly when [matched == 0]. *)
Theorem C4_lexical_score (query : string) (pool : list SearchResult)
    (scores : gmap positive Q) (r : SearchResult) :
  pool_wf pool →
  keyword_tokens query ≠ [] →
  _keyword_search query pool = Ok scores →
  r ∈ pool →
  let terms := expanded_terms query pool in
  let n := size terms in
  let content_lower := Str.lower (content (chunk r)) in
  ∃ metadata_text s,
    metadata_text_of (chunk_metadata (chunk r)) = Ok metadata_text
    ∧ scores !! chunk_id (chunk r) = Some s
    ∧ n ≠ 0%nat
    ∧ let matched := matched_terms content_lower metadata_text terms in
      s = (if (0 <? matched)%nat
           then lexical_formula n matched
                  (total_occurrences content_lower metadata_text terms)
                  (metadata_hits metadata_text terms)
           else 0)
      ∧ (s == 0 ↔ matched = 0%nat).
Proof.
  intros Hwf Hq Hs Hr terms n content_lower.
  destruct (keyword_search_lookup _ _ _ _ Hwf Hq Hs Hr) as (s & Hks & Hlook).
  fold terms in Hks.
  destruct (metadata_text_of (chunk_metadata (chunk r))) as [mt|e] eqn:Hmt.
  2: { unfold keyword_score in Hks. by rewrite Hmt in Hks. }
  exists mt, s. split; [done|]. split; [done|].
  split; [by apply expanded_terms_size|].
  destruct (keyword_score_spec terms (chunk r) mt) as [Hspec Hle];
    [apply expanded_terms_nonempty | done |].
  rewrite Hks in Hspec. injection Hspec as Hspec. intros matched.
  split; [exact Hspec|].
  pose proof (score_of_counters_zero n
    {| term_matches := matched;
       total_term_count := total_occurrences content_lower mt terms;
       metadata_matches := metadata_hits mt terms |} Hle) as Hz.
  unfold score_of_counters in Hz.
  cbn [term_matches total_term_count metadata_matches] in Hz.
  fold (lexical_formula n matched (total_occurrences content_lower mt terms)
          (metadata_hits mt terms)) in Hz.
  by rewrite Hspec.
Qed.

Lemma C4_lexical_score_witness :
  ∃ metadata_text s,
    metadata_text_of (chunk_metadata (chunk ab_hit)) = Ok metadata_text
    ∧ (_keyword_search "ab" [ab_hit]) = Ok {[chunk_id (chunk ab_hit) := s]}
    ∧ s = lexical_formula 1 1 6 1.
Proof.
  assert (pool_wf [ab_hit]) as Hwf.
  { intros c1 c2 H1 H2 _.
    apply list_elem_of_singleton in H1. apply list_elem_of_singleton in H2.
    by rewrite H1, H2. }
  destruct (C4_lexical_score "ab" [ab_hit] {[1%positive := 220 # 200]} ab_hit Hwf)
    as (mt & s & Hmt & Hs & _ & Heq & _).
  - vm_compute. discriminate.
  - vm_compute. reflexivity.
  - apply list_elem_of_here.
  - exists mt, s. split; [exact Hmt|].
    rewrite lookup_singleton_eq in Hs. injection Hs as <-.
    split; [vm_compute; reflexivity|].
    injection Hmt as <-. exact Heq.
Defined.

(** ** Degenerate inputs of the lexical scorer *)

(** C5, as stated, fails in its second part: a chunk with empty content
    whose file name holds the query term has the lexical score [0.86]. *)
Lemma C5_counterexample :
  content (chunk empty_ab_hit) = EmptyString
  ∧ ∃ results r k,
      (search (store_of [empty_ab_hit]) default_config "ab").2 = Ok results
      ∧ results = [r]
      ∧ keyword_score_of r = Some k ∧ k == 86 # 100 ∧ ¬ k == 0.
Proof.
  split; [reflexivity|]. eexists _, _, _.
  split; [vm_compute; reflexivity|]. split; [reflexivity|].
  split; [vm_compute; reflexivity|]. split; [reflexivity | discriminate].
Qed.

(** C5, amended: if the query has no token longer than one character, the
    table of keyword scores is empty whatever the pool, so no candidate is
    scanned and every candidate is fused with the lexical score 0; and a
    candidate whose content is empty has the lexical score 0 when no
    expanded term occurs in its metadata text, in particular when it has
    neither a file name nor a URL. *)
Theorem C5_zero_lexical_score :
  (∀ (query : string) (pool : list SearchResult),
     keyword_tokens query = [] →
     _keyword_search query pool = Ok ∅
     ∧ ∀ config r, keyword_score_of (combine_one config ∅ r) = Some 0)
  ∧ (∀ (query : string) (pool : list SearchResult) (scores : gmap positive Q)
       (r : SearchResult) (metadata_text : string),
       pool_wf pool →
       _keyword_search query pool = Ok scores →
       r ∈ pool →
       content (chunk r) = EmptyString →
       metadata_text_of (chunk_metadata (chunk r)) = Ok metadata_text →
       (∀ t, t ∈ expanded_terms query pool → Str.contains t metadata_text = false) →
       default 0 (scores !! chunk_id (chunk r)) = 0)
  ∧ (∀ md, md !! "file_name" = None → md !! "url" = None →
       metadata_text_of md = Ok EmptyString).
Proof.
  split; [|split].
  - intros query pool Ht. split; [by apply keyword_search_no_tokens|].
    intros config r. by rewrite combine_one_keyword, lookup_empty.
  - intros query pool scores r mt Hwf Hs Hr Hc Hmt Hno.
    destruct (decide (keyword_tokens query = [])) as [H0|Hq].
    { rewrite keyword_search_no_tokens in Hs by done. injection Hs as <-.
      by rewrite lookup_empty. }
    destruct (keyword_search_lookup _ _ _ _ Hwf Hq Hs Hr) as (s & Hks & ->).
    pose proof (expanded_terms_nonempty query pool) as Hne.
    destruct (keyword_score_spec _ (chunk r) mt Hne Hmt) as [Hspec _].
    rewrite Hks in Hspec. injection Hspec as ->. simpl.
    assert (matched_terms (Str.lower (content (chunk r))) mt
              (expanded_terms query pool) = 0%nat) as ->; [|done].
    unfold matched_terms. rewrite Hc.
    rewrite filter_none; [done|].
    intros t Ht%elem_of_elements. change (Str.lower EmptyString) with EmptyString.
    rewrite (Hno t Ht), contains_empty_r; [by intros []|].
    intros ->. by apply Hne.
  - intros md H1 H2. unfold metadata_text_of. by rewrite H1, H2.
Qed.

Lemma C5_zero_lexical_score_witness :
  _keyword_search " a " three_hits = Ok ∅
  ∧ ∃ scores,
      _keyword_search "ab" [make_result 1 EmptyString ∅ 1] = Ok scores
      ∧ default 0 (scores !! 1%positive) = 0.
Proof.
  destruct C5_zero_lexical_score as (H1 & H2 & H3). split.
  - apply (H1 " a " three_hits). reflexivity.
  - eexists. split; [vm_compute; reflexivity|].
    apply (H2 "ab" [make_result 1 EmptyString ∅ 1] _ (make_result 1 EmptyString ∅ 1) EmptyString).
    + intros c1 c2 Hc1 Hc2 _.
      apply list_elem_of_singleton in Hc1. apply list_elem_of_singleton in Hc2.
      by rewrite Hc1, Hc2.
    + vm_compute. reflexivity.
    + apply list_elem_of_here.
    + reflexivity.
    + apply H3; reflexivity.
    + intros t Ht. apply contains_empty_r. intros ->.
      by apply expanded_terms_nonempty in Ht.
Defined.

(** ** The context boost of the reranker *)

(** C6, as stated, fails: the reranker looks for ["site"] and ["this"]
    anywhere in the lower-cased query, not among its tokens.  The query
    ["website"] has the single token ["website"], and a candidate with a
    URL is boosted by [0.25], not by [0.15]. *)
Lemma C6_counterexample :
  Str.split (Str.lower "website") = ["website"]
  ∧ has_site_context (chunk_metadata (chunk url_hit)) = true
  ∧ site_context_boost_of (is_site_query_of (Str.lower "website"))
                          (chunk_metadata (chunk url_hit)) = 25 # 100
  ∧ ∃ r c, _rerank [url_hit] "website" = [r]
           ∧ combined_score_of r = Some c
           ∧ c == 0 + (100 # 104) * (1 # 10) + (25 # 100)
           ∧ ¬ c == 0 + (100 # 104) * (1 # 10) + (15 # 100).
Proof.
  split; [reflexivity|]. split; [reflexivity|]. split; [reflexivity|].
  eexists _, _. split; [vm_compute; reflexivity|]. split; [vm_compute; reflexivity|].
  split; [reflexivity | discriminate].
Qed.

(** C6, amended: every reranked result is a result of the input with
    [position_boost * 0.1] and the context boost added to its combined
    score.  For a candidate whose metadata has a true value under
    [site_common], [navigation_links] or [url], the context boost is exactly
    0.15 when the lower-cased query contains neither ["site"] nor ["this"]
    as a substring and exactly 0.25, in place of the 0.15, when it contains
    one of them; it is never 0.15 + 0.25; for any other candidate it is 0. *)
Theorem C6_context_boost (results : list SearchResult) (query : string)
    (r' : SearchResult) :
  r' ∈ _rerank results query →
  let query_lower := Str.lower query in
  ∃ r, r ∈ results ∧ chunk r' = chunk r
    ∧ let boost := site_context_boost_of (is_site_query_of query_lower)
                                         (chunk_metadata (chunk r)) in
      combined_score_of r' =
        Some (default 0 (combined_score_of r)
              + position_boost_of (Str.lower (content (chunk r)))
                                  (list_to_set (Str.split query_lower)) * (1 # 10)
              + boost)
      ∧ (has_site_context (chunk_metadata (chunk r)) = true →
         (Str.contains "site" query_lower = false →
          Str.contains "this" query_lower = false → boost = 15 # 100)
         ∧ (Str.contains "site" query_lower = true
            ∨ Str.contains "this" query_lower = true → boost = 25 # 100)
         ∧ ¬ boost == (15 # 100) + (25 # 100))
      ∧ (has_site_context (chunk_metadata (chunk r)) = false → boost = 0).
Proof.
  intros (r & -> & Hr)%elem_of_rerank query_lower.
  exists r. split; [done|]. split; [done|]. intros boost.
  split; [apply rerank_one_combined|].
  subst boost. unfold site_context_boost_of, is_site_query_of. split.
  - intros ->. split; [by intros -> ->|]. split.
    + intros [-> | ->]; [done|]. by rewrite orb_true_r.
    + destruct (_ || _); discriminate.
  - by intros ->.
Qed.

Lemma C6_context_boost_witness :
  ∃ r, r ∈ [nav_hit]
    ∧ site_context_boost_of (is_site_query_of (Str.lower "search this site"))
                            (chunk_metadata (chunk r)) = 25 # 100.
Proof.
  destruct (C6_context_boost [nav_hit] "search this site"
              (rerank_one (list_to_set (Str.split (Str.lower "search this site")))
                          (is_site_query_of (Str.lower "search this site")) nav_hit))
    as (r & Hr & _ & _ & Hboost & _).
  - vm_compute. apply list_elem_of_here.
  - exists r. split; [exact Hr|].
    apply list_elem_of_singleton in Hr. subst r.
    apply Hboost; [reflexivity | left; reflexivity].
Defined.

(** ** Independence of the lexical scores *)

(** C7, as stated, fails: with ["pdf"] in the query the terms are expanded
    with the file names found in every candidate of the pool.  For the
    query ["pdf"], the candidate with the content ["pdf"] scores [0.28] next
    to a candidate with the content ["report.pdf"] and [0.56] next to one
    with the content ["nothing"]. *)
Lemma C7_counterexample :
  ∃ scores1 scores2 s1 s2,
    _keyword_search "pdf" [pdf_hit; report_hit] = Ok scores1
    ∧ _keyword_search "pdf" [pdf_hit; nothing_hit] = Ok scores2
    ∧ scores1 !! chunk_id (chunk pdf_hit) = Some s1
    ∧ scores2 !! chunk_id (chunk pdf_hit) = Some s2
    ∧ s1 == 28 # 100 ∧ s2 == 56 # 100 ∧ ¬ s1 == s2.
Proof.
  eexists _, _, _, _.
  split; [vm_compute; reflexivity|]. split; [vm_compute; reflexivity|].
  split; [vm_compute; reflexivity|]. split; [vm_compute; reflexivity|].
  split; [reflexivity|]. split; [reflexivity | discriminate].
Qed.

Lemma keyword_score_ext terms c1 c2 :
  content c1 = content c2 → chunk_metadata c1 = chunk_metadata c2 →
  keyword_score terms c1 = keyword_score terms c2.
Proof. unfold keyword_score. by intros -> ->. Qed.

(** C7, amended: the lexical score of a candidate is a function of the
    expanded term set, its own content and its own metadata.  Two runs on
    the same query give a candidate the same lexical score whenever they
    expand the query to the same term set, in particular whenever the query
    does not contain ["pdf"]; with ["pdf"] in the query the term set, and
    with it every score, depends on the content of all candidates. *)
Theorem C7_lexical_score_independent (query : string)
    (pool1 pool2 : list SearchResult) (scores1 scores2 : gmap positive Q)
    (r1 r2 : SearchResult) :
  pool_wf pool1 → pool_wf pool2 →
  _keyword_search query pool1 = Ok scores1 →
  _keyword_search query pool2 = Ok scores2 →
  r1 ∈ pool1 → r2 ∈ pool2 →
  content (chunk r1) = content (chunk r2) →
  chunk_metadata (chunk r1) = chunk_metadata (chunk r2) →
  Str.contains "pdf" (keyword_query query) = false
  ∨ expanded_terms query pool1 = expanded_terms query pool2 →
  default 0 (scores1 !! chunk_id (chunk r1)) = default 0 (scores2 !! chunk_id (chunk r2)).
Proof.
  intros Hwf1 Hwf2 Hs1 Hs2 Hr1 Hr2 Hc Hm Hterms.
  destruct (decide (keyword_tokens query = [])) as [H0|Hq].
  { rewrite keyword_search_no_tokens in Hs1, Hs2 by done.
    injection Hs1 as <-. injection Hs2 as <-. by rewrite !lookup_empty. }
  assert (expanded_terms query pool1 = expanded_terms query pool2) as Heq.
  { destruct Hterms as [Hpdf|Heq]; [|done]. by apply expand_terms_no_pdf. }
  destruct (keyword_search_lookup _ _ _ _ Hwf1 Hq Hs1 Hr1) as (s1 & Hk1 & ->).
  destruct (keyword_search_lookup _ _ _ _ Hwf2 Hq Hs2 Hr2) as (s2 & Hk2 & ->).
  rewrite Heq, (keyword_score_ext _ _ _ Hc Hm) in Hk1. simpl. congruence.
Qed.

Lemma C7_lexical_score_independent_witness :
  ∃ scores1 scores2,
    _keyword_search "beta" [pdf_hit; report_hit] = Ok scores1
    ∧ _keyword_search "beta" [pdf_hit; nothing_hit] = Ok scores2
    ∧ default 0 (scores1 !! chunk_id (chunk pdf_hit))
      = default 0 (scores2 !! chunk_id (chunk pdf_hit)).
Proof.
  assert (∀ a b : SearchResult, chunk_id (chunk a) ≠ chunk_id (chunk b) → pool_wf [a; b])
    as Hwf.
  { intros a b Hab c1 c2 H1 H2 Hid.
    apply elem_of_cons in H1 as [->|H1]; apply elem_of_cons in H2 as [->|H2];
      try apply list_elem_of_singleton in H1; try apply list_elem_of_singleton in H2;
      subst; try done; simpl in *; congruence. }
  eexists _, _. split; [vm_compute; reflexivity|]. split; [vm_compute; reflexivity|].
  apply (C7_lexical_score_independent "beta" [pdf_hit; report_hit] [pdf_hit; nothing_hit]).
  - by apply Hwf.
  - by apply Hwf.
  - vm_compute. reflexivity.
  - vm_compute. reflexivity.
  - apply list_elem_of_here.
  - apply list_elem_of_here.
  - reflexivity.
  - reflexivity.
  - left. reflexivity.
Defined.

(** ** Over-fetching and truncation *)

(** C8, as stated, fails for a negative [top_k], which the configuration
    admits: [combined_results[:-1]] drops the last result only, so a search
    whose store holds five chunks retrieves three results and returns two,
    more than [top_k = -1]. *)
Lemma C8_counterexample :
  ∃ results,
    search (store_of five_hits)
           {| semantic_weight := 7 # 10; keyword_weight := 3 # 10;
              top_k := -1; rerank := true |} "alpha"
    = ([VectorStoreSearch "alpha" (-2)], Ok results)
    ∧ length results = 2%nat
    ∧ ¬ (Z.of_nat (length results) ≤ -1)%Z.
Proof.
  eexists. split; [vm_compute; reflexivity|]. split; [reflexivity|]. simpl. lia.
Qed.

(** C8, amended: every call to [search] sends exactly one request to the
    vector store, for [top_k * 2] nearest neighbours, and when the call does
    not fail and [top_k >= 0] the returned sequence has at most [top_k]
    results. *)
Theorem C8_overfetch_and_truncate (vs : VectorStore) (config : HybridSearchConfig)
    (query : string) :
  (search vs config query).1 = [VectorStoreSearch query (top_k config * 2)]
  ∧ ∀ results,
      (search vs config query).2 = Ok results →
      (0 ≤ top_k config)%Z →
      (Z.of_nat (length results) ≤ top_k config)%Z.
Proof.
  split; [by rewrite search_unfold|].
  intros results (pool & ks & _ & _ & ->)%search_ok Hk.
  unfold rank. by apply length_slice_to.
Qed.

Lemma C8_overfetch_and_truncate_witness :
  ∃ results,
    (search (store_of five_hits)
            {| semantic_weight := 7 # 10; keyword_weight := 3 # 10;
               top_k := 2; rerank := true |} "alpha").2 = Ok results
    ∧ (Z.of_nat (length results) ≤ 2)%Z.
Proof.
  eexists. split; [vm_compute; reflexivity|].
  apply (C8_overfetch_and_truncate (store_of five_hits)
           {| semantic_weight := 7 # 10; keyword_weight := 3 # 10;
              top_k := 2; rerank := true |} "alpha").
  - vm_compute. reflexivity.
  - simpl. lia.
Defined.

(** ** Stability of the ordering *)

(** Against C9 as written: two candidates of equal similarity, retrieved as
    [repeated_hit] and then [prefixed_hit].  Fusion ranks [prefixed_hit]
    first (0.112 against 0.062), reranking lifts both to 0.312, and the
    second stable sort keeps the fused order: the candidates tie on
    [combined_score] and are returned against the retrieval order. *)
Lemma C9_counterexample :
  ∃ results,
    store_of [repeated_hit; prefixed_hit] "aa aab cc" (top_k default_config * 2)%Z
    = Ok [repeated_hit; prefixed_hit]
    ∧ (search (store_of [repeated_hit; prefixed_hit]) default_config "aa aab cc").2
      = Ok results
    ∧ chunk <$> results = [chunk prefixed_hit; chunk repeated_hit]
    ∧ Forall (λ r, combined_key r == 312 # 1000) results.
Proof.
  eexists. split; [reflexivity|]. split; [vm_compute; reflexivity|].
  split; [reflexivity|]. repeat constructor; vm_compute; reflexivity.
Qed.

(** C9, amended: fusion and reranking each return their results in
    descending order of the combined score, and results with equal combined
    scores keep the order they had before the sort: for fusion the order of
    the retrieved pool, for reranking the order of its input, which is the
    fused ranking and not the retrieval order.  Through both stages, the
    candidates that tie after fusion and tie again after reranking are
    still in the order of the semantic retrieval. *)
Theorem C9_stable_descending_order :
  (∀ (config : HybridSearchConfig) (semantic_results : list SearchResult)
     (keyword_scores : gmap positive Q),
     stable_descending combined_key
       (combine_one config keyword_scores <$> semantic_results)
       (_combine_results config semantic_results keyword_scores))
  ∧ (∀ (results : list SearchResult) (query : string),
       stable_descending combined_key
         (rerank_one (list_to_set (Str.split (Str.lower query)))
                     (is_site_query_of (Str.lower query)) <$> results)
         (_rerank results query))
  ∧ (∀ (config : HybridSearchConfig) (semantic_results : list SearchResult)
       (keyword_scores : gmap positive Q) (query : string),
       let fuse := combine_one config keyword_scores in
       let boost := rerank_one (list_to_set (Str.split (Str.lower query)))
                               (is_site_query_of (Str.lower query)) in
       ∃ order : list SearchResult,
         _rerank (_combine_results config semantic_results keyword_scores) query
         = boost ∘ fuse <$> order
         ∧ ∀ c1 c2 : Q,
             filter (λ x, Qeq_bool (combined_key (fuse x)) c1
                          && Qeq_bool (combined_key (boost (fuse x))) c2) order
             = filter (λ x, Qeq_bool (combined_key (fuse x)) c1
                            && Qeq_bool (combined_key (boost (fuse x))) c2)
                      semantic_results).
Proof.
  split; [|split]; [intros; apply sort_desc_stable..|].
  intros config pool ks query fuse boost.
  exists (sort_desc (combined_key ∘ boost ∘ fuse) (sort_desc (combined_key ∘ fuse) pool)).
  split.
  - unfold _rerank, _combine_results. fold fuse boost.
    rewrite !sort_desc_fmap, <- list_fmap_compose. done.
  - intros c1 c2.
    apply (sort_desc_twice_filter (combined_key ∘ fuse) (combined_key ∘ boost ∘ fuse)).
Qed.

(** ** Term expansion *)

(** C10, as stated, fails: the literals ["sample"], ["sample-3pp"] and
    ["pdf"] are added because of the query alone.  For the query
    ["sample"] the term ["sample-3pp"] is added, though it is no token of
    the query and occurs in no candidate. *)
Lemma C10_counterexample :
  "sample-3pp" ∈ expanded_terms "sample" [hello_hit]
  ∧ "sample-3pp" ∉ keyword_tokens "sample"
  ∧ ∀ r, r ∈ [hello_hit] →
         Str.contains "sample-3pp" (Str.lower (content (chunk r))) = false.
Proof.
  split; [|split].
  - apply elem_of_expand_terms. right. left. split; [reflexivity | by right].
  - vm_compute. by intros [=]%list_elem_of_singleton.
  - by intros r ->%list_elem_of_singleton.
Qed.

(** C10, amended: the term set is expanded only when the lower-cased,
    stripped query contains ["pdf"] or ["sample"] as a substring; the
    expanded set always includes every token of the query; every other term
    of it is one of the literals ["sample"], ["sample-3pp"] (query contains
    ["sample"]) and ["pdf"] (query contains ["pdf"]), or, when the query
    contains ["pdf"], a name taken from a candidate: a run of more than three
    characters of [[\w\-]] that is followed by [".pdf"] in the candidate's
    lower-cased content; and a candidate contributes at most 3 names. *)
Theorem C10_term_expansion (query : string) (pool : list SearchResult) :
  let query_lower := keyword_query query in
  let tokens := keyword_tokens query in
  let terms := expanded_terms query pool in
  (Str.contains "pdf" query_lower = false →
   Str.contains "sample" query_lower = false → terms = list_to_set tokens)
  ∧ list_to_set tokens ⊆ terms
  ∧ (∀ t, t ∈ terms →
       t ∈ tokens
       ∨ (Str.contains "sample" query_lower = true ∧ (t = "sample" ∨ t = "sample-3pp"))
       ∨ (Str.contains "pdf" query_lower = true ∧ t = "pdf")
       ∨ (Str.contains "pdf" query_lower = true ∧
          ∃ r, r ∈ pool ∧ t ∈ pdf_names r
               ∧ (3 < Str.len t)%nat
               ∧ all_chars Re.is_name_char t = true
               ∧ Str.contains (t +:+ ".pdf") (Str.lower (content (chunk r))) = true))
  ∧ (∀ r, (length (pdf_names r) ≤ 3)%nat).
Proof.
  intros query_lower tokens terms. split; [|split; [|split]].
  - intros Hp Hs. by apply expand_terms_no_trigger.
  - apply expand_terms_superset.
  - intros t Ht. apply elem_of_expand_terms in Ht.
    destruct Ht as [H|[H|[Hp [H|(r & Hr & H)]]]]; [by left | by right; left | by right; right; left |].
    right; right; right. split; [done|]. exists r. split; [done|]. split; [done|].
    by apply pdf_names_spec.
  - apply length_pdf_names.
Qed.

Lemma C10_term_expansion_witness :
  expanded_terms "Find Reports" [download_hit] = list_to_set ["find"; "reports"].
Proof.
  pose proof (C10_term_expansion "Find Reports" [download_hit]) as (H1 & _).
  apply H1; reflexivity.
Defined.

(** * Further properties *)

(** ** The result list of a search *)

(** A search that does not fail returns candidates the vector store
    retrieved, with their chunk and raw similarity unchanged and none more
    often than retrieved; it returns [min(top_k, |pool|)] of them when
    [top_k >= 0] and all but the last [-top_k] when [top_k < 0]. *)
Theorem search_returns_retrieved_candidates (vs : VectorStore)
    (config : HybridSearchConfig) (query : string)
    (pool results : list SearchResult) :
  vs query (top_k config * 2)%Z = Ok pool →
  (search vs config query).2 = Ok results →
  candidate_of <$> results ⊆+ candidate_of <$> pool
  ∧ Z.of_nat (length results) =
    if (0 <=? top_k config)%Z
    then Z.min (top_k config) (Z.of_nat (length pool))
    else Z.max 0 (Z.of_nat (length pool) + top_k config).
Proof.
  intros Hvs (pool' & ks & Hvs' & _ & ->)%search_ok.
  rewrite Hvs in Hvs'. injection Hvs' as <-. rewrite rank_unfold. split.
  - rewrite <- (ranking_candidates config query pool ks).
    apply fmap_submseteq, sublist_submseteq, slice_to_sublist.
  - rewrite length_slice_to_eq.
    assert (length (if rerank config
                    then _rerank (_combine_results config (normalize_results pool) ks) query
                    else _combine_results config (normalize_results pool) ks)
            = length pool) as ->; [|done].
    rewrite <- (length_fmap candidate_of), (ranking_candidates config query pool ks).
    by rewrite length_fmap.
Qed.

Lemma search_returns_retrieved_candidates_witness :
  ∃ results,
    (search (store_of five_hits) default_config "alpha").2 = Ok results
    ∧ candidate_of <$> results ⊆+ candidate_of <$> five_hits
    ∧ Z.of_nat (length results) = 5%Z.
Proof.
  exists (rank default_config "alpha" five_hits
            {[1%positive := 56 # 100; 2%positive := 0; 3%positive := 0;
              4%positive := 0; 5%positive := 0]}).
  split; [vm_compute; reflexivity|].
  apply (search_returns_retrieved_candidates (store_of five_hits) default_config
           "alpha" five_hits).
  - reflexivity.
  - vm_compute. reflexivity.
Defined.

(** The results of a search are in descending order of their combined
    score, whether reranking is on or off. *)
Theorem search_results_descending (vs : VectorStore) (config : HybridSearchConfig)
    (query : string) (results : list SearchResult) :
  (search vs config query).2 = Ok results →
  StronglySorted (λ a b, combined_key b <= combined_key a) results.
Proof.
  intros (pool & ks & _ & _ & ->)%search_ok. rewrite rank_unfold.
  apply slice_to_sorted, ranking_sorted.
Qed.

Lemma search_results_descending_witness :
  ∃ results,
    (search (store_of five_hits) default_config "alpha").2 = Ok results
    ∧ StronglySorted (λ a b, combined_key b <= combined_key a) results.
Proof.
  eexists. split; [vm_compute; reflexivity|].
  apply (search_results_descending (store_of five_hits) default_config "alpha").
  vm_compute. reflexivity.
Defined.

(** ** The boosts of the reranker *)

(** Reranking never lowers a combined score, and raises it by at most
    [0.1] per query token plus [0.25]. *)
Theorem rerank_boost_bounded (results : list SearchResult) (query : string)
    (r' : SearchResult) :
  r' ∈ _rerank results query →
  let tokens : gset string := list_to_set (Str.split (Str.lower query)) in
  ∃ r c', r ∈ results ∧ candidate_of r' = candidate_of r
    ∧ combined_score_of r' = Some c'
    ∧ combined_key r <= c'
      <= combined_key r + (1 # 10) * inject_Z (Z.of_nat (size tokens)) + (1 # 4).
Proof.
  intros (r & -> & Hr)%elem_of_rerank tokens.
  exists r. eexists. split; [done|]. split; [done|].
  split; [apply rerank_one_combined|].
  pose proof (position_boost_bounds (Str.lower (content (chunk r))) tokens) as [Hp1 Hp2].
  pose proof (site_context_boost_bounds (is_site_query_of (Str.lower query))
                (chunk_metadata (chunk r))) as [Hs1 Hs2].
  fold tokens. unfold combined_key, combined_score_of.
  destruct (metadata r !! "combined_score") as [c|]; simpl; split; lra.
Qed.

Lemma rerank_boost_bounded_witness :
  ∃ r c', r ∈ [url_hit]
    ∧ combined_score_of (rerank_one (list_to_set (Str.split (Str.lower "our website")))
                                    (is_site_query_of (Str.lower "our website")) url_hit)
      = Some c'
    ∧ combined_key r <= c'.
Proof.
  destruct (rerank_boost_bounded [url_hit] "our website"
              (rerank_one (list_to_set (Str.split (Str.lower "our website")))
                          (is_site_query_of (Str.lower "our website")) url_hit))
    as (r & c' & Hr & _ & Hc & Hle & _).
  - vm_compute. apply list_elem_of_here.
  - exists r, c'. split; [exact Hr|]. split; [exact Hc | exact Hle].
Defined.

(** ** The failures of a search *)

(** An exception of the vector store is passed on.  When the store answers,
    the search raises exactly when the query has a token longer than one
    character and some retrieved candidate has a file name or a URL that is
    set to a true value which is no string: lower-casing it, or appending
    the result to the metadata text, raises, whatever the other candidates
    are. *)
Theorem search_failure_cases (vs : VectorStore) (config : HybridSearchConfig)
    (query : string) :
  (∀ e, vs query (top_k config * 2)%Z = Raise e →
        (search vs config query).2 = Raise e)
  ∧ ∀ pool, vs query (top_k config * 2)%Z = Ok pool →
      ((∃ e, (search vs config query).2 = Raise e)
       ↔ keyword_tokens query ≠ []
         ∧ ∃ r, r ∈ pool ∧ malformed_chunk (chunk r) = true).
Proof.
  rewrite search_unfold. simpl. split.
  - by intros e ->.
  - intros pool ->.
    destruct (_keyword_search query (normalize_results pool)) as [ks|e1] eqn:Hks.
    + split; [by intros [e [=]]|]. intros [Hq Hm].
      assert (_keyword_search query (normalize_results pool) = Raise AttributeError) as Hr.
      { apply keyword_search_raise. by rewrite malformed_normalize_results. }
      congruence.
    + apply keyword_search_raise in Hks as (Hq & -> & Hm).
      rewrite malformed_normalize_results in Hm. split; [done|].
      intros _. by eexists.
Qed.

Lemma search_failure_cases_witness :
  ∃ e, (search (store_of [numbered_hit]) default_config "ab").2 = Raise e.
Proof.
  destruct (search_failure_cases (store_of [numbered_hit]) default_config "ab")
    as [_ Hcases].
  apply (Hcases [numbered_hit]); [reflexivity|].
  split; [by vm_compute|]. exists numbered_hit.
  split; [apply list_elem_of_here | reflexivity].
Defined.

(** ** The normalised scores *)

(** Normalisation keeps the order of the raw similarities, and when they are
    not all equal the greatest one is mapped to 1 and the least one to 0. *)
Theorem normalize_keeps_order (x : Q) (xs : list Q) :
  let scores := x :: xs in
  (∀ i j si sj ni nj,
     scores !! i = Some si → scores !! j = Some sj →
     normalize scores !! i = Some ni → normalize scores !! j = Some nj →
     si <= sj → ni <= nj)
  ∧ (¬ py_max x xs == py_min x xs →
     (∃ i n, scores !! i = Some (py_max x xs)
             ∧ normalize scores !! i = Some n ∧ n == 1)
     ∧ (∃ i n, scores !! i = Some (py_min x xs)
               ∧ normalize scores !! i = Some n ∧ n == 0)).
Proof.
  intros scores. unfold scores. rewrite normalize_cons.
  pose proof (score_range_pos _ _ (py_min_le_max x xs)) as Hpos.
  set (mn := py_min x xs) in *. set (mx := py_max x xs) in *.
  set (rg := score_range mx mn) in *. split.
  - intros i j si sj ni nj Hi Hj Hni Hnj Hle.
    rewrite list_lookup_fmap, Hi in Hni. rewrite list_lookup_fmap, Hj in Hnj.
    simpl in *. injection Hni as <-. injection Hnj as <-.
    apply Qle_shift_div_l; [done|].
    assert ((si - mn) / rg * rg == si - mn) as Hmul by (field; lra).
    rewrite Hmul. lra.
  - intros Hne.
    assert (rg == mx - mn) as Hrg.
    { unfold rg, score_range. destruct (Qeq_bool mx mn) eqn:E; simpl; [|reflexivity].
      apply Qeq_bool_iff in E. contradiction. }
    split.
    + destruct (proj1 (list_elem_of_lookup _ _) (foldl_Qmax_in x xs)) as [i Hi].
      fold (py_max x xs) in Hi. fold mx in Hi.
      exists i. eexists. split; [done|]. rewrite list_lookup_fmap, Hi. simpl.
      split; [done|]. rewrite Hrg. field. lra.
    + destruct (proj1 (list_elem_of_lookup _ _) (foldl_Qmin_in x xs)) as [i Hi].
      fold (py_min x xs) in Hi. fold mn in Hi.
      exists i. eexists. split; [done|]. rewrite list_lookup_fmap, Hi. simpl.
      split; [done|]. rewrite Hrg. field. lra.
Qed.

Lemma normalize_keeps_order_witness :
  ∃ n0 n2, normalize [1; 3; 5] !! 0%nat = Some n0
           ∧ normalize [1; 3; 5] !! 2%nat = Some n2 ∧ n0 <= n2.
Proof.
  destruct (normalize_keeps_order 1 [3; 5]) as [H _].
  exists (0 # 4), (4 # 4). split; [reflexivity|]. split; [reflexivity|].
  apply (H 0%nat 2%nat 1 5); try reflexivity. by vm_compute.
Defined.

(** ** The table of keyword scores and the term set *)

(** The table [_keyword_search] returns has an entry for the chunk of every
    candidate of the pool and for nothing else, unless the query has no
    token longer than one character: then the table is empty. *)
Theorem keyword_table_domain (query : string) (pool : list SearchResult)
    (scores : gmap positive Q) :
  _keyword_search query pool = Ok scores →
  dom scores =
  if decide (keyword_tokens query = []) then ∅
  else list_to_set ((λ r, chunk_id (chunk r)) <$> pool).
Proof.
  case_decide as Hq.
  - rewrite keyword_search_no_tokens by done. intros [= <-]. set_solver.
  - rewrite keyword_search_tokens by done. intros Hs.
    rewrite (score_results_dom_eq _ _ _ _ Hs). set_solver.
Qed.

Lemma keyword_table_domain_witness :
  ∃ scores, _keyword_search "alpha" three_hits = Ok scores
            ∧ dom scores = {[1%positive; 2%positive; 3%positive]}.
Proof.
  eexists. split; [vm_compute; reflexivity|].
  rewrite (keyword_table_domain "alpha" three_hits); [|vm_compute; reflexivity].
  simpl. set_solver.
Defined.

(** Term expansion is bounded: the expanded term set has at most the number
    of query tokens, plus the three literals, plus three names for every
    candidate of the pool. *)
Theorem expanded_terms_bounded (query : string) (pool : list SearchResult) :
  (size (expanded_terms query pool)
   ≤ length (keyword_tokens query) + 3 + 3 * length pool)%nat.
Proof.
  etrans.
  - apply (subseteq_list_size _
             (keyword_tokens query ++ ["sample"; "sample-3pp"; "pdf"]
              ++ mjoin (pdf_names <$> pool))).
    intros t Ht. unfold expanded_terms in Ht. apply elem_of_expand_terms in Ht.
    rewrite !elem_of_app.
    destruct Ht as [H|[[_ [-> | ->]]|[_ [-> |(r & Hr & H)]]]].
    + by left.
    + right; left. apply elem_of_cons. by left.
    + right; left. apply elem_of_cons; right. apply elem_of_cons. by left.
    + right; left. do 2 (apply elem_of_cons; right). apply elem_of_cons. by left.
    + right; right. apply list_elem_of_join. exists (pdf_names r).
      split; [done|]. by apply list_elem_of_fmap_2.
  - rewrite !length_app. simpl.
    assert (length (mjoin (pdf_names <$> pool)) ≤ 3 * length pool)%nat as H; [|lia].
    induction pool as [|r rest IH]; [done|].
    rewrite fmap_cons. simpl. rewrite length_app.
    pose proof (length_pdf_names r). lia.
Qed.

(** ** Fusion and dominance *)

(** With non-negative weights, a candidate that was retrieved before another
    and is at least as good on both the semantic and the keyword score is
    ranked before it by the fusion. *)
Theorem fusion_respects_dominance (config : HybridSearchConfig)
    (semantic_results : list SearchResult) (keyword_scores : gmap positive Q)
    (i j : nat) (ri rj : SearchResult) :
  let semantic r := default (score r) (semantic_score_of r) in
  let keyword r := default 0 (keyword_scores !! chunk_id (chunk r)) in
  0 <= semantic_weight config → 0 <= keyword_weight config →
  semantic_results !! i = Some ri → semantic_results !! j = Some rj →
  (i < j)%nat →
  semantic rj <= semantic ri → keyword rj <= keyword ri →
  precedes (combine_one config keyword_scores ri)
           (combine_one config keyword_scores rj)
           (_combine_results config semantic_results keyword_scores).
Proof.
  intros semantic keyword Hws Hwk Hi Hj Hij Hs Hk.
  unfold _combine_results. apply sort_desc_precedes.
  - exists i, j. split; [done|]. by rewrite !list_lookup_fmap, Hi, Hj.
  - unfold combined_key.
    pose proof (combine_one_combined config keyword_scores ri) as Hci.
    pose proof (combine_one_combined config keyword_scores rj) as Hcj.
    unfold combined_score_of in Hci, Hcj. rewrite Hci, Hcj. simpl.
    fold (semantic ri) (semantic rj) (keyword ri) (keyword rj). nra.
Qed.

Lemma fusion_respects_dominance_witness :
  precedes (combine_one default_config ∅ (make_result 1 "alpha" ∅ (9 # 10)))
           (combine_one default_config ∅ (make_result 2 "beta" ∅ (5 # 10)))
           (_combine_results default_config three_hits ∅).
Proof.
  apply (fusion_respects_dominance default_config three_hits ∅ 0 1);
    try reflexivity; try (by vm_compute); lia.
Defined.

(** ** The fixed-size chunker *)

(** When the overlap is smaller than the chunk size, [FixedChunker.chunk]
    returns, after at most one round per character: it makes
    [ceil(len / (size - overlap))] chunks, and chunk [k] has the index [k]
    and holds [content[k*step : k*step + size]] with
    [step = size - overlap]. *)
Theorem fixed_chunker_chunks (self : FixedChunker) (document : Document)
    (next_id : positive) (fuel : nat) :
  (chunk_overlap self < chunk_size self)%Z →
  (Str.len (doc_content document) ≤ fuel)%nat →
  fixed_chunk fuel self document next_id
  = Some (fixed_chunk_at self document next_id
          <$> seq 0 (fixed_count self (Str.len (doc_content document)))).
Proof. apply fixed_chunk_closed. Qed.

Lemma fixed_chunker_chunks_witness :
  content <$> default [] (fixed_chunk 10 sample_chunker sample_document 1)
  = ["abcd"; "defg"; "ghij"; "j"].
Proof.
  rewrite (fixed_chunker_chunks sample_chunker sample_document 1 10).
  - reflexivity.
  - reflexivity.
  - vm_compute. lia.
Defined.

(** [FixedChunker.chunk] returns exactly when the overlap is smaller than
    the chunk size or the document is empty; otherwise the loop never
    ends. *)
Theorem fixed_chunker_returns_iff (self : FixedChunker) (document : Document)
    (next_id : positive) :
  (∃ fuel chunks, fixed_chunk fuel self document next_id = Some chunks)
  ↔ (chunk_overlap self < chunk_size self)%Z ∨ doc_content document = EmptyString.
Proof.
  split.
  - intros (fuel & chunks & H).
    destruct (decide (chunk_overlap self < chunk_size self)%Z) as [|Hstep]; [by left|].
    right. destruct (decide (doc_content document = EmptyString)) as [|Hne]; [done|].
    unfold fixed_chunk in H.
    rewrite fixed_chunk_loop_diverges in H; [done | unfold fixed_step; lia | lia | done].
  - intros [Hstep | Hempty].
    + exists (Str.len (doc_content document)). eexists.
      by apply fixed_chunk_closed.
    + exists 0%nat, []. unfold fixed_chunk. simpl. by rewrite Hempty.
Qed.

(** With [0 <= overlap < size] the chunks cover the document: the first
    [size - overlap] characters of every chunk, put together in order, are
    the content of the document. *)
Theorem fixed_chunks_cover (self : FixedChunker) (document : Document)
    (next_id : positive) (fuel : nat) (chunks : list Chunk) :
  (0 ≤ chunk_overlap self < chunk_size self)%Z →
  fixed_chunk fuel self document next_id = Some chunks →
  mjoin ((λ c, take (Z.to_nat (fixed_step self)) (list_ascii_of_string (content c)))
         <$> chunks)
  = list_ascii_of_string (doc_content document).
Proof.
  intros H Hc. apply fixed_chunk_some in Hc; [|lia]. subst chunks.
  rewrite <- list_fmap_compose.
  set (l := list_ascii_of_string (doc_content document)).
  set (st := Z.to_nat (fixed_step self)). set (w := Z.to_nat (chunk_size self)).
  set (m := fixed_count self (Str.len (doc_content document))).
  assert (st ≤ w)%nat as Hw by (unfold st, w, fixed_step; lia).
  rewrite (list_fmap_ext _ (λ k, take st (take w (drop (k * st) l)))).
  - rewrite windows_cover by done. apply take_ge.
    assert (¬ (m < m)%nat) as Hm by lia. unfold m at 2 in Hm.
    rewrite <- fixed_count_spec in Hm by (unfold fixed_step; lia).
    rewrite len_list_ascii in Hm. fold l in Hm. unfold st. nia.
  - intros i k _. unfold compose. by rewrite fixed_chunk_at_content.
Qed.

Lemma fixed_chunks_cover_witness :
  ∃ chunks,
    fixed_chunk 10 sample_chunker sample_document 1 = Some chunks
    ∧ mjoin ((λ c, take 3 (list_ascii_of_string (content c))) <$> chunks)
      = list_ascii_of_string "abcdefghij".
Proof.
  eexists. split; [vm_compute; reflexivity|].
  apply (fixed_chunks_cover sample_chunker sample_document 1 10).
  - simpl. lia.
  - vm_compute. reflexivity.
Defined.

(** With [0 <= overlap < size], chunk [k] has the index [k], is not empty
    and has at most [size] characters, and what follows its first
    [size - overlap] characters is the beginning of the next chunk. *)
Theorem fixed_chunks_shape (self : FixedChunker) (document : Document)
    (next_id : positive) (fuel : nat) (chunks : list Chunk) (k : nat) (c : Chunk) :
  (0 ≤ chunk_overlap self < chunk_size self)%Z →
  fixed_chunk fuel self document next_id = Some chunks →
  chunks !! k = Some c →
  chunk_index c = Z.of_nat k
  ∧ (1 ≤ Z.of_nat (Str.len (content c)) ≤ chunk_size self)%Z
  ∧ ∀ c', chunks !! S k = Some c' →
          drop (Z.to_nat (fixed_step self)) (list_ascii_of_string (content c))
          `prefix_of` list_ascii_of_string (content c').
Proof.
  intros H Hc Hk. apply fixed_chunk_some in Hc; [|lia]. subst chunks.
  set (n := Str.len (doc_content document)) in *.
  assert (∀ j c0, (fixed_chunk_at self document next_id <$> seq 0 (fixed_count self n)) !! j
                  = Some c0 →
                  c0 = fixed_chunk_at self document next_id j
                  ∧ (j < fixed_count self n)%nat) as Hat.
  { intros j c0 Hj. rewrite list_lookup_fmap in Hj.
    destruct (seq 0 (fixed_count self n) !! j) as [j'|] eqn:E; [|done].
    apply lookup_seq in E as [-> ?]. simpl in Hj. injection Hj as <-. done. }
  apply Hat in Hk as [-> Hlt]. split; [done|].
  apply fixed_count_spec in Hlt; [|unfold fixed_step; lia].
  set (l := list_ascii_of_string (doc_content document)).
  assert (length l = n) as Hl by (unfold l, n; by rewrite len_list_ascii).
  split.
  - rewrite len_list_ascii, fixed_chunk_at_content by done. fold l.
    rewrite length_take, length_drop, Hl. unfold fixed_step in *. nia.
  - intros c' [-> _]%Hat. rewrite !fixed_chunk_at_content by done. fold l.
    set (st := Z.to_nat (fixed_step self)). set (w := Z.to_nat (chunk_size self)).
    assert (st ≤ w)%nat as Hw by (unfold st, w, fixed_step; lia).
    assert (drop st (take w (drop (k * st) l)) = take (w - st) (drop (S k * st) l)) as ->.
    { replace (S k * st)%nat with (k * st + st)%nat by lia.
      rewrite <- drop_drop, (take_drop_commute (drop (k * st) l) (w - st) st).
      by replace (st + (w - st))%nat with w by lia. }
    exists (drop (w - st) (take w (drop (S k * st) l))).
    rewrite <- (take_drop (w - st) (take w (drop (S k * st) l))) at 1.
    rewrite take_take, Nat.min_l by lia. done.
Qed.

Lemma fixed_chunks_shape_witness :
  ∃ c, default [] (fixed_chunk 10 sample_chunker sample_document 1) !! 1%nat = Some c
       ∧ chunk_index c = 1%Z
       ∧ (1 ≤ Z.of_nat (Str.len (content c)) ≤ 4)%Z.
Proof.
  eexists. split; [vm_compute; reflexivity|].
  destruct (fixed_chunks_shape sample_chunker sample_document 1 10
              (default [] (fixed_chunk 10 sample_chunker sample_document 1)) 1
              (fixed_chunk_at sample_chunker sample_document 1 1)) as (H1 & H2 & _).
  - simpl. lia.
  - vm_compute. reflexivity.
  - vm_compute. reflexivity.
  - split; [exact H1 | exact H2].
Defined.

(** ** The chunker factory *)

(** Every chunk [chunk_document] returns has at least 50 characters after
    stripping, comes from a chunker of the factory that returned it for the
    document, and carries the name of that chunker as its
    [chunking_strategy]; and the document has content that is not blank. *)
Theorem chunk_document_output (chunkers : list Chunker) (document : Document)
    (out : list Chunk) (c : Chunk) :
  chunk_document chunkers document = Some out →
  c ∈ out →
  (50 ≤ Str.len (Str.strip (content c)))%nat
  ∧ is_blank_text (doc_content document) = false
  ∧ ∃ chunker chunks c0,
      chunker ∈ chunkers
      ∧ chunk_method chunker document = Some (Ok chunks)
      ∧ c0 ∈ chunks
      ∧ content c = content c0 ∧ chunk_index c = chunk_index c0
      ∧ chunk_metadata c
        = <["chunking_strategy" := VStr (get_name chunker)]> (chunk_metadata c0).
Proof.
  unfold chunk_document, is_blank_text.
  destruct (bool_decide (doc_content document = EmptyString)
            || bool_decide (Str.strip (doc_content document) = EmptyString)) eqn:Eb.
  - intros [= <-] ?%elem_of_nil. done.
  - intros Hout Hc.
    destruct (chunks_of_chunkers_elem _ _ _ _ Hout Hc)
      as (chunker & chunks & c0 & Hin & Hm & Hc0 & Hk & ->).
    split.
    + unfold keeps_chunk in Hk. apply andb_true_iff in Hk as [_ Hk].
      apply Nat.leb_le in Hk. exact Hk.
    + split; [done|]. exists chunker, chunks, c0. by repeat split.
Qed.

Lemma chunk_document_output_witness :
  ∃ out c, chunk_document [failing_chunker; wide_chunker] long_document = Some out
           ∧ out !! 0%nat = Some c
           ∧ (50 ≤ Str.len (Str.strip (content c)))%nat.
Proof.
  eexists _, _. split; [vm_compute; reflexivity|]. split; [reflexivity|].
  eapply (chunk_document_output [failing_chunker; wide_chunker] long_document).
  - vm_compute. reflexivity.
  - apply list_elem_of_here.
Defined.

(** A chunker that raises is skipped: the factory returns what it returns
    without that chunker. *)
Theorem chunk_document_skips_failing (chunkers1 chunkers2 : list Chunker)
    (failing : Chunker) (document : Document) (e : exn) :
  chunk_method failing document = Some (Raise e) →
  chunk_document (chunkers1 ++ failing :: chunkers2) document
  = chunk_document (chunkers1 ++ chunkers2) document.
Proof.
  intros Hf. unfold chunk_document.
  destruct (_ || _); [done|].
  rewrite !chunks_of_chunkers_app. simpl.
  unfold chunks_of_chunker. rewrite Hf. simpl.
  destruct (chunks_of_chunkers document chunkers1) as [o1|]; [|done]. simpl.
  destruct (chunks_of_chunkers document chunkers2) as [o2|]; done.
Qed.

Lemma chunk_document_skips_failing_witness :
  chunk_document ([] ++ failing_chunker :: [wide_chunker]) long_document
  = chunk_document ([] ++ [wide_chunker]) long_document.
Proof.
  apply (chunk_document_skips_failing [] [wide_chunker] failing_chunker long_document
           EmbeddingError).
  reflexivity.
Defined.

(** With a chunk size below 50 the fixed strategy contributes no chunk: all
    its chunks are shorter than the minimum the factory keeps. *)
Theorem fixed_chunker_below_minimum (self : FixedChunker) (document : Document)
    (next_id : positive) (fuel : nat) :
  (chunk_overlap self < chunk_size self)%Z →
  (0 < chunk_size self < 50)%Z →
  (Str.len (doc_content document) ≤ fuel)%nat →
  chunks_of_chunker document (fixed_chunker fuel self next_id) = Some [].
Proof.
  intros Hstep Hsize Hfuel. unfold chunks_of_chunker, fixed_chunker. simpl.
  rewrite fixed_chunk_closed by done. simpl. f_equal.
  rewrite filter_none; [done|].
  intros c (k & -> & _)%list_elem_of_fmap Hk. apply Is_true_true in Hk.
  unfold keeps_chunk in Hk. apply andb_true_iff in Hk as [_ Hk].
  apply Nat.leb_le in Hk. unfold min_chunk_size in Hk.
  pose proof (len_strip (content (fixed_chunk_at self document next_id k))) as Hs.
  assert (Str.len (content (fixed_chunk_at self document next_id k))
          ≤ Z.to_nat (chunk_size self))%nat as Hl; [|lia].
  rewrite len_list_ascii. unfold fixed_chunk_at. simpl.
  rewrite slice_str_list by (unfold fixed_step; nia).
  rewrite length_take. lia.
Qed.

Lemma fixed_chunker_below_minimum_witness :
  chunks_of_chunker long_document
    (fixed_chunker 100 {| chunk_size := 49; chunk_overlap := 10 |} 1) = Some [].
Proof.
  apply (fixed_chunker_below_minimum {| chunk_size := 49; chunk_overlap := 10 |}
           long_document 1 100); simpl; lia.
Defined.

(** ** The choice of a document loader *)

(** The factory never chooses the [HtmlLoader]: every file it can load, a
    [.txt] file under a path with [processed], is taken by the [TextLoader],
    which is registered before it. *)
Theorem html_loader_is_shadowed (file_path : string) :
  get_loader default_loaders file_path ≠ Some HtmlLoader
  ∧ (can_load HtmlLoader file_path = true →
     get_loader default_loaders file_path = Some TextLoader).
Proof.
  unfold default_loaders, get_loader, can_load.
  destruct (decide (Path.suffix file_path = ".txt")) as [Hs|Hs].
  - rewrite Hs. simpl. split; [done|]. done.
  - rewrite (bool_decide_eq_false_2 (Path.suffix file_path = ".txt")) by done. simpl.
    split; [|done]. repeat (case_bool_decide || case_match); done.
Qed.

Lemma html_loader_is_shadowed_witness :
  get_loader default_loaders "html_output/processed/index.txt" = Some TextLoader.
Proof.
  apply (html_loader_is_shadowed "html_output/processed/index.txt"). reflexivity.
Defined.

(** No loader is registered for PDF files: [get_loader] raises [ValueError]
    for every file the [PdfLoader] could load. *)
Theorem pdf_files_have_no_loader (file_path : string) :
  can_load PdfLoader file_path = true →
  get_loader default_loaders file_path = None.
Proof.
  intros Hpdf. unfold can_load in Hpdf. apply bool_decide_eq_true in Hpdf.
  assert (can_load MarkdownLoader file_path = false) as H1
    by (unfold can_load; rewrite Hpdf; by vm_compute).
  assert (can_load JsonLoader file_path = false) as H2
    by (unfold can_load; rewrite Hpdf; by vm_compute).
  assert (can_load TextLoader file_path = false) as H3
    by (unfold can_load; rewrite Hpdf; by vm_compute).
  assert (can_load HtmlLoader file_path = false) as H4.
  { unfold can_load. rewrite bool_decide_eq_false_2; [done|].
    intros Ht. by rewrite Ht in Hpdf. }
  assert (can_load RawHtmlLoader file_path = false) as H5.
  { unfold can_load. rewrite bool_decide_eq_false_2; [done|].
    intros [Ht|[Ht|?%elem_of_nil]%elem_of_cons]%elem_of_cons;
      [by rewrite Ht in Hpdf..|done]. }
  unfold default_loaders. cbn [get_loader]. by rewrite H1, H2, H3, H4, H5.
Qed.

Lemma pdf_files_have_no_loader_witness :
  get_loader default_loaders "downloads/Sample-3pp.PDF" = None.
Proof. apply (pdf_files_have_no_loader "downloads/Sample-3pp.PDF"). reflexivity. Defined.

(** [load_documents] returns one document for each path of a sub-sequence
    of the given paths, in their order: the document the chosen loader
    loaded from that path, which has content; files without loader, failing
    loads and documents without content are left out. *)
Theorem load_documents_output (load : Loader → string → Result Document)
    (loaders : list Loader) (file_paths : list string) :
  ∃ loaded_paths,
    loaded_paths `sublist_of` file_paths
    ∧ Forall2 (λ file_path doc,
                 doc_content doc ≠ EmptyString
                 ∧ ∃ loader, get_loader loaders file_path = Some loader
                             ∧ can_load loader file_path = true
                             ∧ load loader file_path = Ok doc)
              loaded_paths (load_documents load loaders file_paths).
Proof.
  unfold load_documents. induction file_paths as [|p rest (ps & Hsub & Hall)].
  - exists []. split; [done | constructor].
  - cbn [omap list_omap].
    destruct (get_loader loaders p) as [loader|] eqn:Hl;
      [|exists ps; split; [by apply sublist_cons | done]].
    destruct (load loader p) as [d|e] eqn:Hd;
      [|exists ps; split; [by apply sublist_cons | done]].
    case_bool_decide as Hc; [exists ps; split; [by apply sublist_cons | done]|].
    exists (p :: ps). split; [by apply sublist_skip|].
    constructor; [|done]. split; [done|]. exists loader. repeat split; try done.
    clear -Hl. induction loaders as [|l0 ls IH]; [done|]. simpl in Hl.
    destruct (can_load l0 p) eqn:E; [by injection Hl as <- | by apply IH].
Qed.

(** ** The embedder and the in-memory store *)

(** [embed_texts] drops the blank texts before it calls the embedding
    service, and calls it only with a list of texts that is not empty and
    holds no blank text: its answer is that of the service for the texts
    that are not blank, so with a service that gives one vector per text
    there are as many vectors as texts that are not blank. *)
Theorem embed_texts_drops_blank (service : EmbeddingService) (texts : list string) :
  let valid_texts := filter (λ t, is_blank_text t = false) texts in
  embed_texts service texts = embed_texts service valid_texts
  ∧ (∀ other : EmbeddingService,
       (∀ l, l ≠ [] → Forall (λ t, is_blank_text t = false) l →
             embed_documents other l = embed_documents service l) →
       embed_texts other texts = embed_texts service texts)
  ∧ (one_vector_per_text service →
     ∀ embeddings, embed_texts service texts = Returns embeddings →
                   length embeddings = length valid_texts).
Proof.
  intros valid_texts. split; [apply embed_texts_filter|]. split.
  - intros other Hagree. unfold embed_texts. case_bool_decide; [done|].
    case_bool_decide as Hv; [done|]. apply Hagree; [done|].
    apply Forall_forall. by intros t [? _]%list_elem_of_filter.
  - intros Hone embeddings. by apply embed_texts_count.
Qed.

Lemma embed_texts_drops_blank_witness :
  embed_texts length_service ["alpha"; "  "; "beta"] = Returns [[5]; [4]].
Proof.
  destruct (embed_texts_drops_blank length_service ["alpha"; "  "; "beta"]) as (H & _).
  rewrite H. reflexivity.
Defined.

(** [add_chunks] keeps the chunks and their vectors aligned exactly when no
    new chunk is blank (the service giving one vector per text): a blank
    chunk is stored without a vector, and the vectors after it belong to
    later chunks.  The count grows by the number of new chunks either way. *)
Theorem add_chunks_alignment (service : EmbeddingService)
    (self self' : InMemoryVectorStore) (new_chunks : list Chunk) :
  one_vector_per_text service →
  aligned self →
  add_chunks service self new_chunks = Returns self' →
  chunks self' = chunks self ++ new_chunks
  ∧ get_count self' = (get_count self + length new_chunks)%nat
  ∧ (aligned self' ↔ Forall (λ c, is_blank_text (content c) = false) new_chunks).
Proof.
  intros Hone Hal. unfold add_chunks.
  destruct (embed_texts service (content <$> new_chunks)) as [embeddings|e] eqn:He; [|done].
  intros [= <-]. split; [done|]. unfold get_count, aligned in *. simpl.
  split; [by rewrite length_app|].
  pose proof (embed_texts_count service (content <$> new_chunks) embeddings Hone He) as Hlen.
  rewrite !length_app, Hal, Hlen.
  pose proof (length_filter (λ t, is_blank_text t = false) (content <$> new_chunks)) as Hle.
  rewrite length_fmap in Hle. split.
  - intros Heq. assert (length (filter (λ t, is_blank_text t = false) (content <$> new_chunks))
                        = length (content <$> new_chunks)) as Hfull
      by (rewrite length_fmap; lia).
    apply filter_full_length in Hfull. by apply Forall_fmap in Hfull.
  - intros Hall. f_equal. rewrite <- (length_fmap content). f_equal.
    apply filter_all. by apply Forall_fmap.
Qed.

Lemma add_chunks_alignment_witness :
  ∃ self', add_chunks length_service empty_store [text_chunk 1 "alpha"; text_chunk 2 "  "]
           = Returns self'
           ∧ get_count self' = 2%nat ∧ ¬ aligned self'.
Proof.
  eexists. split; [reflexivity|].
  destruct (add_chunks_alignment length_service empty_store
              {| chunks := [text_chunk 1 "alpha"; text_chunk 2 "  "];
                 vectors := [[5]] |}
              [text_chunk 1 "alpha"; text_chunk 2 "  "]) as (_ & H2 & H3).
  - intros texts embeddings [= <-]. by rewrite length_fmap.
  - reflexivity.
  - reflexivity.
  - split; [exact H2|]. intros Hal. apply H3 in Hal.
    apply Forall_cons in Hal as [_ Hal]. apply Forall_cons in Hal as [Hal _].
    discriminate Hal.
Defined.

(** A search of the in-memory store that returns has a query that is not
    blank, and its results have a positive similarity, stored also as
    [metadata["similarity"]], and a chunk of the store; there are at most
    [top_k] of them when [top_k >= 0].  A blank query raises [ValueError]
    in the embedder. *)
Theorem in_memory_search_results (np : Numpy) (service : EmbeddingService)
    (self : InMemoryVectorStore) (query : string) (k : Z) :
  (is_blank_text query = true →
   in_memory_search np service self query k = Raises ValueError)
  ∧ ∀ results,
      in_memory_search np service self query k = Returns results →
      is_blank_text query = false
      ∧ Forall (λ r, 0 < score r
                     ∧ metadata r = {["similarity" := score r]}
                     ∧ chunk r ∈ chunks self) results
      ∧ ((0 ≤ k)%Z → (Z.of_nat (length results) ≤ k)%Z).
Proof.
  unfold in_memory_search, embed_text. split.
  - by intros ->.
  - intros results. destruct (is_blank_text query); [done|].
    destruct (embed_query service query) as [qv|e]; [|done].
    destruct (cosine_similarity np qv (vectors self)) as [sims|e]; [|done].
    intros Hc. split; [done|].
    destruct (collect_results_spec self sims _ _ Hc) as [Hall Hlen].
    split; [done|]. intros Hk.
    pose proof (length_slice_to (reverse (argsort np sims)) k Hk). lia.
Qed.

Lemma in_memory_search_results_witness :
  in_memory_search sample_numpy length_service sample_store "   " 5 = Raises ValueError
  ∧ ∃ r, in_memory_search sample_numpy length_service sample_store "ab" 5 = Returns [r]
         ∧ 0 < score r ∧ chunk r ∈ chunks sample_store.
Proof.
  destruct (in_memory_search_results sample_numpy length_service sample_store "   " 5)
    as [Hblank _].
  split; [by apply Hblank|].
  destruct (in_memory_search_results sample_numpy length_service sample_store "ab" 5)
    as [_ Hresults].
  eexists. split; [reflexivity|].
  destruct (Hresults _ eq_refl) as (_ & Hall & _).
  apply Forall_cons in Hall as [(Hpos & _ & Hin) _]. split; [exact Hpos | exact Hin].
Defined.
